(** * file-arranger: the rule-driven planning / execution / undo engine

    A shallow embedding of [arranger.py].  The three event handlers
    [start_arranging], [apply_moves] and [undo_moves] and the helper
    [_resolve_target] are commands on an explicit application state that
    holds the module globals ([CONFIG], [selected_folder], [PLANNED],
    [LAST_MOVES]), the file system, the files of the log directory and the
    items of the preview widget.

    The library calls the handlers make ([pathlib], [os], [shutil], as in
    CPython 3.8 to 3.12) are modelled for a POSIX file system without
    symbolic links, permissions or device boundaries: every error of the
    model comes from the shape of the tree (a missing entry, a regular file
    where a directory is needed, ...) or from the length of a name or of a
    path ([NAME_MAX], [PATH_MAX]).  The log directory is taken to lie
    outside the tree the handlers work on, and to exist (the module makes it
    when it is loaded).  Strings are byte strings without NUL, and names
    are valid UTF-8, so that they can be written to the log;
    [str.lower] is modelled on ASCII, where it changes the letters [A] to
    [Z] only, and what is proved of the outcome of a comparison of
    lower-cased strings is stated for ASCII strings.  What is in the tree
    can be named: the selected folder is a path the folder dialog has
    returned, the name of a directory that was there, and the paths [rglob]
    reads from the directories are within the limits of the file system.
    The names the program makes up (destinations, numbered candidates) need
    not be.  Progress-bar updates, [print] and [QApplication.processEvents]
    do not touch the data below and are left out. *)

From Stdlib Require Import Ascii.
From Stdlib Require String.
From stdpp Require Import base tactics option list strings pretty gmap.

#[local] Set Warnings "-register-all".

(** ** Characters and strings *)

Definition nl : string := String (ascii_of_nat 10) "".
Definition tab : string := String (ascii_of_nat 9) "".
Definition dquote : string := String (ascii_of_nat 34) "".

(** [str.lower()], on the ASCII letters; other bytes are left alone. *)
Definition lower_ascii (c : ascii) : ascii :=
  let n := nat_of_ascii c in
  if (65 <=? n)%nat && (n <=? 90)%nat then ascii_of_nat (n + 32) else c.

Fixpoint lower (s : string) : string :=
  match s with
  | EmptyString => EmptyString
  | String c s' => String (lower_ascii c) (lower s')
  end.

(** [s.rfind('.')]: the index of the last dot, [None] for Python's [-1]. *)
Fixpoint rfind_dot (s : string) : option nat :=
  match s with
  | EmptyString => None
  | String c s' =>
      match rfind_dot s' with
      | Some i => Some (S i)
      | None => if decide (c = "."%char) then Some 0%nat else None
      end
  end.

(** [s.split(sep)] for a one-character separator. *)
Fixpoint split_on (sep : ascii) (s : string) : list string :=
  match s with
  | EmptyString => [EmptyString]
  | String c s' =>
      if decide (c = sep) then EmptyString :: split_on sep s'
      else match split_on sep s' with
           | [] => [String c EmptyString]
           | h :: t => String c h :: t
           end
  end.

(** [sep.join(l)]. *)
Fixpoint join (sep : string) (l : list string) : string :=
  match l with
  | [] => ""
  | [x] => x
  | x :: l' => x +:+ sep +:+ join sep l'
  end.

Fixpoint count_leading (c : ascii) (s : string) : nat :=
  match s with
  | String c' s' => if decide (c' = c) then S (count_leading c s') else 0%nat
  | EmptyString => 0%nat
  end.

Fixpoint string_mem (c : ascii) (s : string) : bool :=
  match s with
  | EmptyString => false
  | String c' s' => bool_decide (c' = c) || string_mem c s'
  end.

(** ** Exceptions *)

Inductive exn_class :=
  | FileNotFoundError | FileExistsError | NotADirectoryError
  | IsADirectoryError | OSError | ValueError | TypeError | ShutilError.

(** [type(e).__name__] and [str(e)]. *)
Record exn := mkExn { exn_class_of : exn_class; exn_detail : string }.

Definition exn_name (e : exn) : string :=
  match exn_class_of e with
  | FileNotFoundError => "FileNotFoundError"
  | FileExistsError => "FileExistsError"
  | NotADirectoryError => "NotADirectoryError"
  | IsADirectoryError => "IsADirectoryError"
  | OSError => "OSError"
  | ValueError => "ValueError"
  | TypeError => "TypeError"
  | ShutilError => "Error"
  end.

(** What a call does: return a value, raise, or (for the model of a [while]
    loop only) run out of the fuel the model gave it. *)
Inductive result (A : Type) :=
  | Ok (a : A)
  | Raise (e : exn)
  | Timeout.
Arguments Ok {A} a.
Arguments Raise {A} e.
Arguments Timeout {A}.

Global Instance result_ret : MRet result := λ A a, Ok a.
Global Instance result_bind : MBind result := λ A B k r,
  match r with
  | Ok a => k a
  | Raise e => Raise e
  | Timeout => Timeout
  end.

(** ** Pure paths ([pathlib.PurePosixPath]) *)

Module Path.

(** [root] is [""], ["/"] or ["//"]; [parts] are the components after it.
    As in [pathlib], [".."] is kept as a component and ["."] is dropped
    when a string is parsed. *)
Record t := mk { root : string; parts : list string }.

Global Instance eq_dec : EqDecision t.
Proof. solve_decision. Defined.

(** [Path(s)]. *)
Definition of_string (s : string) : t :=
  let k := count_leading "/"%char s in
  {| root := match k with 0%nat => "" | 2%nat => "//" | _ => "/" end;
     parts := filter (λ c, c ≠ "" ∧ c ≠ ".") (split_on "/"%char s) |}.

(** [str(p)]. *)
Definition to_string (p : t) : string :=
  match root p, parts p with
  | EmptyString, [] => "."
  | r, ps => r +:+ join "/" ps
  end.

Definition is_absolute (p : t) : bool := bool_decide (root p ≠ "").

(** [p / q]: an absolute right operand replaces the left one. *)
Definition join (p q : t) : t :=
  if is_absolute q then q
  else {| root := root p; parts := parts p ++ parts q |}.

(** [p.name], [""] when the path is only an anchor. *)
Definition name (p : t) : string := List.last (parts p) "".

(** [p.parent]. *)
Definition parent (p : t) : t :=
  {| root := root p; parts := removelast (parts p) |}.

(** [p.parents]: the proper ancestors, nearest first. *)
Fixpoint ancestors (r : string) (rev_parts : list string) : list t :=
  match rev_parts with
  | [] => []
  | _ :: rp => {| root := r; parts := rev rp |} :: ancestors r rp
  end.
Definition parents (p : t) : list t := ancestors (root p) (rev (parts p)).

(** [p.suffix] and [p.stem]. *)
Definition dot_index (n : string) : option nat :=
  match rfind_dot n with
  | Some i =>
      if bool_decide (0 < i)%nat && bool_decide (i < String.length n - 1)%nat
      then Some i else None
  | None => None
  end.
Definition suffix (p : t) : string :=
  let n := name p in
  match dot_index n with
  | Some i => String.substring i (String.length n - i) n
  | None => ""
  end.
Definition stem (p : t) : string :=
  let n := name p in
  match dot_index n with
  | Some i => String.substring 0 i n
  | None => n
  end.

(** [p.with_name(n)]: [ValueError] when [p] has no name or [n] is not a
    single path component. *)
Definition valid_name (n : string) : bool :=
  bool_decide (n ≠ "") && negb (string_mem "/"%char n) && bool_decide (n ≠ ".").
Definition with_name (p : t) (n : string) : result t :=
  if bool_decide (name p = "") then
    Raise (mkExn ValueError
             ("PosixPath('" +:+ to_string p +:+ "') has an empty name"))
  else if valid_name n then
    Ok {| root := root p; parts := removelast (parts p) ++ [n] |}
  else Raise (mkExn ValueError ("Invalid name '" +:+ n +:+ "'")).

End Path.

Abbreviation Path := Path.t.
Infix "//" := Path.join (at level 40, left associativity).

(** ** The file system *)

(** A directory lists its entries in the order [os.scandir] reports them. *)
Inductive node :=
  | File (data : string)
  | Dir (entries : list (string * node)).

Fixpoint entry (n : string) (es : list (string * node)) : option node :=
  match es with
  | [] => None
  | (m, c) :: es' => if decide (m = n) then Some c else entry n es'
  end.

Fixpoint set_entry (n : string) (new : node) (es : list (string * node))
  : list (string * node) :=
  match es with
  | [] => [(n, new)]
  | (m, c) :: es' =>
      if decide (m = n) then (n, new) :: es' else (m, c) :: set_entry n new es'
  end.

Definition del_entry (n : string) (es : list (string * node))
  : list (string * node) :=
  filter (λ e, e.1 ≠ n) es.

(** The node at a location: a list of names read from the root. *)
Fixpoint get_node (nd : node) (l : list string) : option node :=
  match l with
  | [] => Some nd
  | n :: l' =>
      match nd with
      | Dir es => c ← entry n es; get_node c l'
      | File _ => None
      end
  end.

(** Bind a location whose parent is a directory to [new]. *)
Fixpoint put (nd : node) (l : list string) (new : node) : node :=
  match l with
  | [] => new
  | n :: l' =>
      match nd with
      | File _ => nd
      | Dir es =>
          match l', entry n es with
          | [], _ => Dir (set_entry n new es)
          | _ :: _, Some c => Dir (set_entry n (put c l' new) es)
          | _ :: _, None => nd
          end
      end
  end.

(** Unlink a location. *)
Fixpoint del (nd : node) (l : list string) : node :=
  match l with
  | [] => nd
  | n :: l' =>
      match nd with
      | File _ => nd
      | Dir es =>
          match l', entry n es with
          | [], _ => Dir (del_entry n es)
          | _ :: _, Some c => Dir (set_entry n (del c l') es)
          | _ :: _, None => nd
          end
      end
  end.

Module FS.

(** The tree under ["/"] and the working directory of the process. *)
Record t := mk { tree : node; cwd : list string }.

Definition oserr (c : exn_class) (msg : string) (p : Path) : exn :=
  mkExn c (msg +:+ ": '" +:+ Path.to_string p +:+ "'").
Definition ENOENT := oserr FileNotFoundError "[Errno 2] No such file or directory".
Definition EEXIST := oserr FileExistsError "[Errno 17] File exists".
Definition ENOTDIR := oserr NotADirectoryError "[Errno 20] Not a directory".
Definition EISDIR := oserr IsADirectoryError "[Errno 21] Is a directory".
Definition EINVAL := oserr OSError "[Errno 22] Invalid argument".
Definition ENOTEMPTY := oserr OSError "[Errno 39] Directory not empty".
Definition ENAMETOOLONG := oserr OSError "[Errno 36] File name too long".

(** The limits of the file system (Linux): a component of more than
    [NAME_MAX] bytes names nothing, and a path of [PATH_MAX] bytes or more
    (its terminator counted) is refused before it is looked at. *)
Definition NAME_MAX : N := 255.
Definition PATH_MAX : N := 4096.
Definition long_name (c : string) : bool :=
  bool_decide (NAME_MAX < N.of_nat (String.length c))%N.
Definition long_path (p : Path) : bool :=
  bool_decide (PATH_MAX ≤ N.of_nat (String.length (Path.to_string p)))%N.

Definition start (w : t) (p : Path) : list string :=
  if Path.is_absolute p then [] else cwd w.

(** Path resolution: every component walked must be a directory; [".."]
    steps to the parent (["/.."] is ["/"]); a component that is too long
    is refused when the walk comes to it. *)
Fixpoint walk (w : t) (p : Path) (cur : list string) (comps : list string)
  : result (list string) :=
  match comps with
  | [] => Ok cur
  | c :: rest =>
      if decide (c = "..") then walk w p (removelast cur) rest
      else if long_name c then Raise (ENAMETOOLONG p)
      else match get_node (tree w) (cur ++ [c]) with
           | Some (Dir _) => walk w p (cur ++ [c]) rest
           | Some (File _) => Raise (ENOTDIR p)
           | None => Raise (ENOENT p)
           end
  end.

(** The location a path names; its last component need not exist, but
    must be short enough to be a name. *)
Definition locate (w : t) (p : Path) : result (list string) :=
  if long_path p then Raise (ENAMETOOLONG p)
  else match Path.parts p with
       | [] => Ok (start w p)
       | _ =>
           d ← walk w p (start w p) (removelast (Path.parts p));
           if decide (Path.name p = "..") then Ok (removelast d)
           else if long_name (Path.name p) then Raise (ENAMETOOLONG p)
           else Ok (d ++ [Path.name p])
       end.

(** [os.stat(p)]. *)
Definition stat (w : t) (p : Path) : result node :=
  l ← locate w p;
  match get_node (tree w) l with
  | Some nd => Ok nd
  | None => Raise (ENOENT p)
  end.

(** The path names an entry, a directory, a regular file:
    [os.path.exists(p)], [os.path.isdir(p)], [os.path.isfile(p)], which
    are [False] whenever [os.stat] fails.  The methods [p.is_dir()] and
    [p.is_file()] of [pathlib] give the same answer unless the error is
    [ENAMETOOLONG], which they pass on.  The planner calls them on the
    selected folder and on what [rglob] has just read from the directories;
    [mkdir] calls [is_dir] after [os.mkdir] has failed on the same path,
    where the error passed on would be the one [os.mkdir] has raised. *)
Definition exists_ (w : t) (p : Path) : bool :=
  match stat w p with Ok _ => true | _ => false end.
Definition is_dir (w : t) (p : Path) : bool :=
  match stat w p with Ok (Dir _) => true | _ => false end.
Definition is_file (w : t) (p : Path) : bool :=
  match stat w p with Ok (File _) => true | _ => false end.

(** [p.exists()] of [pathlib]: [False] when [os.stat] fails with an error
    that says there is no such path ([_ignore_error]: [ENOENT] and
    [ENOTDIR] here); any other [OSError], here [ENAMETOOLONG], is raised. *)
Definition ignore_error (e : exn) : bool :=
  match exn_class_of e with
  | FileNotFoundError | NotADirectoryError => true
  | _ => false
  end.
Definition path_exists (w : t) (p : Path) : result bool :=
  match stat w p with
  | Ok _ => Ok true
  | Raise e => if ignore_error e then Ok false else Raise e
  | Timeout => Timeout
  end.

(** [p.resolve()]: with no symbolic links this is the absolute path with
    its [".."] components folded away, whether or not it exists. *)
Definition resolve (w : t) (p : Path) : list string :=
  fold_left (λ acc c, if decide (c = "..") then removelast acc else acc ++ [c])
            (Path.parts p) (start w p).

(** [os.mkdir(p)]. *)
Definition os_mkdir (w : t) (p : Path) : result t :=
  match Path.parts p with
  | [] => Raise (EEXIST p)
  | _ =>
      l ← locate w p;
      if decide (Path.name p = "..") then Raise (EEXIST p)
      else match get_node (tree w) l with
           | Some _ => Raise (EEXIST p)
           | None => Ok {| tree := put (tree w) l (Dir []); cwd := cwd w |}
           end
  end.

Definition is_not_found (e : exn) : bool :=
  match exn_class_of e with FileNotFoundError => true | _ => false end.

(** [p.mkdir(parents=True, exist_ok=True)], as [pathlib] writes it: try
    [os.mkdir]; on [FileNotFoundError] make the parent the same way and
    try once more; any other [OSError] is dropped when [p] is a directory.
    [k] counts the leading components of [p] that make up the path at
    hand.  Directories made before a failure stay, so the file system
    comes back next to the result. *)
Fixpoint mkdir_upto (w : t) (p : Path) (k : nat) : result () * t :=
  let q := {| Path.root := Path.root p; Path.parts := take k (Path.parts p) |} in
  match os_mkdir w q with
  | Ok w' => (Ok (), w')
  | Raise e =>
      if is_not_found e then
        match k with
        | O => (Raise e, w)
        | S k' =>
            match mkdir_upto w p k' with
            | (Ok _, w1) =>
                match os_mkdir w1 q with
                | Ok w2 => (Ok (), w2)
                | Raise e2 =>
                    if is_not_found e2 then (Raise e2, w1)
                    else if is_dir w1 q then (Ok (), w1) else (Raise e2, w1)
                | Timeout => (Timeout, w1)
                end
            | (r, w1) => (r, w1)
            end
        end
      else if is_dir w q then (Ok (), w) else (Raise e, w)
  | Timeout => (Timeout, w)
  end.
Definition mkdir_parents (w : t) (p : Path) : result () * t :=
  mkdir_upto w p (length (Path.parts p)).

Definition is_proper_prefix (l1 l2 : list string) : bool :=
  bool_decide (l1 `prefix_of` l2) && bool_decide (l1 ≠ l2).

(** [os.rename(src, dst)] (rename(2)). *)
Definition os_rename (w : t) (src dst : Path) : result t :=
  ls ← locate w src;
  match get_node (tree w) ls with
  | None => Raise (ENOENT src)
  | Some nd =>
      ld ← locate w dst;
      let moved := Ok {| tree := put (del (tree w) ls) ld nd; cwd := cwd w |} in
      if decide (Path.name src = "..") then Raise (EINVAL src)
      else if decide (Path.name dst = "..") then Raise (EINVAL dst)
      else if decide (ls = ld) then Ok w
      else if decide (ls = []) then Raise (EINVAL src)
      else if decide (ld = []) then Raise (ENOTEMPTY dst)
      else if is_proper_prefix ls ld then Raise (EINVAL dst)
      else match get_node (tree w) ld, nd with
           | None, _ => moved
           | Some (File _), File _ => moved
           | Some (File _), Dir _ => Raise (ENOTDIR dst)
           | Some (Dir _), File _ => Raise (EISDIR dst)
           | Some (Dir []), Dir _ => moved
           | Some (Dir (_ :: _)), Dir _ => Raise (ENOTEMPTY dst)
           end
  end.

(** [shutil.move(src, dst)]: into [dst] when it is a directory, a rename
    otherwise.  On one device the copy that [shutil] falls back to after a
    failed rename fails for a regular file with the same class of error;
    for a directory it refuses a destination inside the source, and its
    recursive copy, which succeeds only when the parent of [dst] is
    missing, is not modelled (both callers create that parent first). *)
Definition into_itself (src dst : Path) : exn :=
  mkExn ShutilError ("Cannot move a directory '" +:+ Path.to_string src
                     +:+ "' into itself '" +:+ Path.to_string dst +:+ "'.").

Definition rename_or_fail (w : t) (src dst : Path) : result t :=
  match os_rename w src dst with
  | Raise e =>
      if is_dir w src && is_proper_prefix (resolve w src) (resolve w dst)
      then Raise (into_itself src dst) else Raise e
  | r => r
  end.

(** [os.path.samefile(a, b)], [False] when either cannot be examined. *)
Definition samefile (w : t) (a b : Path) : bool :=
  match locate w a, locate w b with
  | Ok la, Ok lb => bool_decide (la = lb) && exists_ w a
  | _, _ => false
  end.

Definition shutil_move (w : t) (src dst : Path) : result t :=
  if is_dir w dst then
    if samefile w src dst then os_rename w src dst
    else
      let real_dst := dst // Path.mk "" [Path.name src] in
      if exists_ w real_dst then
        Raise (mkExn ShutilError ("Destination path '" +:+ Path.to_string real_dst
                                  +:+ "' already exists"))
      else rename_or_fail w src real_dst
  else rename_or_fail w src dst.

(** The number of entries of the directory a path's last component is
    looked up in. *)
Definition siblings (w : t) (p : Path) : nat :=
  match walk w p (start w p) (removelast (Path.parts p)) with
  | Ok d =>
      match get_node (tree w) d with
      | Some (Dir es) => length es
      | _ => 0
      end
  | _ => 0
  end.

(** [p.rglob("*")]: for every directory below [p], in pre-order, all of
    its entries; nothing is yielded twice, and nothing at all when [p] is
    not a directory.  (The properties below do not depend on the order.) *)
Definition child (p : Path) (n : string) : Path :=
  {| Path.root := Path.root p; Path.parts := Path.parts p ++ [n] |}.

Fixpoint rglob_node (p : Path) (nd : node) : list Path :=
  match nd with
  | File _ => []
  | Dir es =>
      map (λ e, child p e.1) es ++
      (fix below (es : list (string * node)) : list Path :=
         match es with
         | [] => []
         | (n, c) :: es' => rglob_node (child p n) c ++ below es'
         end) es
  end.

Definition rglob (w : t) (p : Path) : list Path :=
  match stat w p with
  | Ok (Dir es) => remove_dups (rglob_node p (Dir es))
  | _ => []
  end.

End FS.

Abbreviation FS := FS.t.

(** ** Configuration and application state *)

(** One entry of [rules] in [rules.yaml].  [match_ext] is
    [r.get("match", {}).get("ext", [])] and [action_move_to] is
    [r.get("action", {}).get("move_to")]: an absent key reads as the empty
    list, respectively as [None]. *)
Record Rule := mkRule {
  name : option string;
  match_ext : list string;
  action_move_to : option string }.

Record Config := mkConfig {
  target : option string;
  rules : list Rule }.

(** A planned move: source, destination and the name of the rule. *)
Definition planned_move : Type := Path * Path * string.

(** The module globals, the file system, the files of [LOG_DIR] by name, the
    items of the preview list and the two buttons the handlers switch. *)
Record State := mkState {
  CONFIG : Config;
  selected_folder : option string;
  PLANNED : list planned_move;
  LAST_MOVES : list (string * string);
  fs : FS;
  logs : gmap string string;
  preview : list string;
  apply_btn : bool;
  undo_btn : bool }.

Definition set_PLANNED (x : list planned_move) (s : State) : State :=
  mkState (CONFIG s) (selected_folder s) x (LAST_MOVES s) (fs s) (logs s)
          (preview s) (apply_btn s) (undo_btn s).
Definition set_LAST_MOVES (x : list (string * string)) (s : State) : State :=
  mkState (CONFIG s) (selected_folder s) (PLANNED s) x (fs s) (logs s)
          (preview s) (apply_btn s) (undo_btn s).
Definition set_fs (x : FS) (s : State) : State :=
  mkState (CONFIG s) (selected_folder s) (PLANNED s) (LAST_MOVES s) x (logs s)
          (preview s) (apply_btn s) (undo_btn s).
Definition set_logs (x : gmap string string) (s : State) : State :=
  mkState (CONFIG s) (selected_folder s) (PLANNED s) (LAST_MOVES s) (fs s) x
          (preview s) (apply_btn s) (undo_btn s).
Definition set_preview (x : list string) (s : State) : State :=
  mkState (CONFIG s) (selected_folder s) (PLANNED s) (LAST_MOVES s) (fs s) (logs s)
          x (apply_btn s) (undo_btn s).
Definition set_apply_btn (x : bool) (s : State) : State :=
  mkState (CONFIG s) (selected_folder s) (PLANNED s) (LAST_MOVES s) (fs s) (logs s)
          (preview s) x (undo_btn s).
Definition set_undo_btn (x : bool) (s : State) : State :=
  mkState (CONFIG s) (selected_folder s) (PLANNED s) (LAST_MOVES s) (fs s) (logs s)
          (preview s) (apply_btn s) x.

(** ** Commands: state and exceptions

    A command runs on a state and leaves a state, also when it raises: what
    was done before the exception stays done. *)
Definition M (A : Type) : Type := State → result A * State.

Global Instance M_ret : MRet M := λ A a s, (Ok a, s).
Global Instance M_bind : MBind M := λ A B k m s,
  match m s with
  | (Ok a, s') => k a s'
  | (Raise e, s') => (Raise e, s')
  | (Timeout, s') => (Timeout, s')
  end.

Definition raise {A} (e : exn) : M A := λ s, (Raise e, s).
Definition timeout {A} : M A := λ s, (Timeout, s).
Definition lift {A} (r : result A) : M A := λ s, (r, s).
Definition gets {A} (f : State → A) : M A := λ s, (Ok (f s), s).
Definition modify (f : State → State) : M () := λ s, (Ok (), f s).

(** [try: m except Exception as e: h e]. *)
Definition try_except {A} (m : M A) (h : exn → M A) : M A := λ s,
  match m s with
  | (Raise e, s') => h e s'
  | r => r
  end.

(** The calls on the file system and on the open log file. *)
Definition mkdir (p : Path) : M () := λ s,
  let '(r, w) := FS.mkdir_parents (fs s) p in (r, set_fs w s).
Definition exists_ (p : Path) : M bool := λ s, (FS.path_exists (fs s) p, s).
Definition resolve (p : Path) : M (list string) := gets (λ s, FS.resolve (fs s) p).
Definition move (src dst : Path) : M () := λ s,
  match FS.shutil_move (fs s) src dst with
  | Ok w => (Ok (), set_fs w s)
  | Raise e => (Raise e, s)
  | Timeout => (Timeout, s)
  end.

(** [open(LOG_DIR / n, "w")] and [lf.write(txt)]. *)
Definition open_w (n : string) : M () :=
  modify (λ s, set_logs (<[n := ""]> (logs s)) s).
Definition write (n txt : string) : M () :=
  modify (λ s, set_logs (<[n := default "" (logs s !! n) +:+ txt]> (logs s)) s).

(** ** Helpers *)

(** Python's truth value of a string, or of [None]. *)
Definition truthy (o : option string) : bool :=
  match o with
  | Some s => bool_decide (s ≠ "")
  | None => false
  end.

Definition _resolve_target (cfg : Config) (src : Path) : Path :=
  let raw_tgt := target cfg in
  if truthy raw_tgt then
    let tgt := Path.of_string (default "" raw_tgt) in
    if negb (Path.is_absolute tgt) then src // tgt else tgt
  else src // Path.of_string "Organized".

(** The suffix put before the extension of a taken name, going forward and
    when restoring. *)
Definition numbered (i : nat) : string := " (" +:+ pretty i +:+ ")".
Definition undone (i : nat) : string := " (undone " +:+ pretty i +:+ ")".

(** [while candidate.exists(): candidate = candidate.with_name(...); i += 1].
    [fuel] bounds the number of renamings. *)
Fixpoint next_free (fuel : nat) (token : nat → string) (base candidate : Path)
    (i : nat) : M Path :=
  b ← exists_ candidate;
  if b : bool then
    match fuel with
    | O => timeout
    | S fuel' =>
        c ← lift (Path.with_name candidate
                    (Path.stem base +:+ token i +:+ Path.suffix base));
        next_free fuel' token base c (S i)
    end
  else mret candidate.

(** The loop started at [candidate = base], [i = 1].  One more renaming than
    the directory has entries always reaches a free name. *)
Definition available_path (token : nat → string) (base : Path) : M Path :=
  w ← gets fs;
  next_free (S (FS.siblings w base)) token base base 1.

(** ** Event handlers *)

(** [{e.lower() for e in r.get("match", {}).get("ext", [])}]. *)
Definition exts_of (r : Rule) : gset string :=
  list_to_set (lower <$> match_ext r).

(** The [for r in rules] loop of [start_arranging] for one file: the first
    rule that passes the test appends one entry and ends the loop. *)
Fixpoint match_rules (rs : list Rule) (f tgt : Path)
    (planned : list planned_move) : list planned_move :=
  match rs with
  | [] => planned
  | r :: rest =>
      let exts := exts_of r in
      let move_to := action_move_to r in
      if bool_decide (exts ≠ ∅) && truthy move_to
         && bool_decide (lower (Path.suffix f) ∈ exts)
      then
        let dest := tgt // Path.of_string (default "" move_to)
                        // Path.of_string (Path.name f) in
        planned ++ [(f, dest, default "rule" (name r))]
      else match_rules rest f tgt planned
  end.

(** The [for f in src.rglob("*")] loop.  [f.is_file()] is asked of a path
    [rglob] has just read from the directories. *)
Fixpoint plan_loop (files : list Path) (tgt : Path) (rs : list Rule)
    (planned : list planned_move) : M (list planned_move) :=
  match files with
  | [] => mret planned
  | f :: files' =>
      is_file ← gets (λ s, FS.is_file (fs s) f);
      if negb is_file then plan_loop files' tgt rs planned
      else if bool_decide (tgt ∈ Path.parents f) then plan_loop files' tgt rs planned
      else plan_loop files' tgt rs (match_rules rs f tgt planned)
  end.

(** The first half of [start_arranging]: from [src = Path(selected_folder)]
    to the end of the outer loop, giving the local [planned]. *)
Definition plan (src : Path) : M (list planned_move) :=
  cfg ← gets CONFIG;
  let tgt := _resolve_target cfg src in
  files ← gets (λ s, FS.rglob (fs s) src);
  plan_loop files tgt (rules cfg) [].

Definition start_arranging : M () :=
  sel ← gets selected_folder;
  if negb (truthy sel) then mret ()
  else
    let src := Path.of_string (default "" sel) in
    planned ← plan src;
    cfg ← gets CONFIG;
    let tgt := _resolve_target cfg src in
    match planned with
    | [] =>
        modify (set_preview ["No files to move for the current rules."]);;
        modify (set_apply_btn false)
    | _ =>
        modify (set_PLANNED planned);;
        modify (set_preview
          ["🧚‍♀️:Inside: '" +:+ Path.to_string tgt +:+ "'";
           "Files will be organized into Images / PDFs / Docs / Videos.";
           "If you want to proceed, click " +:+ dquote +:+ "Apply Moves"
             +:+ dquote +:+ "."]);;
        modify (set_apply_btn true)
    end.

(** The counters and lists [apply_moves] keeps while it runs. *)
Record tally := mkTally {
  moved : nat;
  skipped : list string;
  failed : list (string * string);
  session_moves : list (string * string) }.

(** The body of the [for srcf, dstf, rname in PLANNED] loop; [lf] names the
    open log.  [mkdir] is the first statement and stands outside any [try].
    The comparison of the resolved paths is inside a [try] that passes on
    [FileNotFoundError], which [resolve] does not raise here.  The second
    [try] encloses the move, the counter, the log line and the ledger
    record; its handler takes any [Exception]. *)
Definition apply_item (lf : string) (item : planned_move) (t : tally) : M tally :=
  let '(srcf, dstf, rname) := item in
  mkdir (Path.parent dstf);;
  rs ← resolve srcf;
  rd ← resolve dstf;
  if decide (rs = rd) then
    write lf ("SKIPPED" +:+ tab +:+ Path.to_string srcf +:+ nl);;
    mret (mkTally (moved t) (skipped t ++ [Path.name srcf]) (failed t)
                  (session_moves t))
  else
    candidate ← available_path numbered dstf;
    try_except
      (move srcf candidate;;
       write lf ("MOVED" +:+ tab +:+ Path.to_string srcf +:+ " -> "
                 +:+ Path.to_string candidate +:+ nl);;
       mret (mkTally (S (moved t)) (skipped t) (failed t)
               (session_moves t
                  ++ [(Path.to_string candidate, Path.to_string srcf)])))
      (λ e,
       write lf ("FAILED" +:+ tab +:+ Path.to_string srcf +:+ " -> "
                 +:+ Path.to_string candidate +:+ " (" +:+ exn_name e
                 +:+ ": " +:+ exn_detail e +:+ ")" +:+ nl);;
       mret (mkTally (moved t) (skipped t)
               (failed t ++ [(Path.name srcf, exn_name e)])
               (session_moves t))).

Fixpoint apply_loop (lf : string) (plan : list planned_move) (t : tally)
    : M tally :=
  match plan with
  | [] => mret t
  | item :: rest => t' ← apply_item lf item t; apply_loop lf rest t'
  end.

Definition log_name (ts : string) : string := "arranger_" +:+ ts +:+ ".txt".

Definition counts (a b c : string) (t : tally) : string :=
  a +:+ pretty (moved t) +:+ b +:+ pretty (length (skipped t))
    +:+ c +:+ pretty (length (failed t)).

(** [ts] is the reading of the clock, [datetime.now()] formatted. *)
Definition apply_moves (ts : string) : M () :=
  plan ← gets PLANNED;
  match plan with
  | [] => mret ()
  | _ =>
      let lf := log_name ts in
      sel ← gets selected_folder;
      open_w lf;;
      write lf ("[Apply] " +:+ ts +:+ nl +:+ "Source: " +:+ default "None" sel
                +:+ nl +:+ nl);;
      t ← apply_loop lf plan (mkTally 0 [] [] []);
      src ← match sel with
            | Some folder => mret (Path.of_string folder)
            | None => raise (mkExn TypeError
                "expected str, bytes or os.PathLike object, not NoneType")
            end;
      cfg ← gets CONFIG;
      let tgt := _resolve_target cfg src in
      write lf (nl +:+ "SUMMARY" +:+ nl);;
      write lf (counts "Moved: " "  Skipped: " "  Failed: " t +:+ nl);;
      modify (set_LAST_MOVES (session_moves t));;
      modify (set_undo_btn (bool_decide (session_moves t ≠ [])));;
      modify (set_preview
        ["🎉 All done!";
         "🧚‍♀️: Open '" +:+ Path.to_string tgt +:+ "' (click to open)";
         "📝 Log: 'logs/" +:+ lf +:+ "' (click to open)";
         counts "Moved: " "   Skipped: " "   Failed: " t;
         "🧚‍♀️:If you don't like these changes, click the 'Undo' button."]);;
      modify (set_PLANNED []);;
      modify (set_apply_btn false)
  end.

(** The body of the loop of [undo_moves]; [acc] is [(restored, failed)].
    Here [mkdir] and the collision loop are inside the [try]. *)
Definition restore_entry (entry : string * string)
    (acc : nat * list (string * string)) : M (nat * list (string * string)) :=
  let '(final_path, original_path) := entry in
  let final := Path.of_string final_path in
  let original := Path.of_string original_path in
  try_except
    (mkdir (Path.parent original);;
     candidate ← available_path undone original;
     move final candidate;;
     mret (S acc.1, acc.2))
    (λ e, mret (acc.1, acc.2 ++ [(Path.name final, exn_name e)])).

Fixpoint undo_loop (entries : list (string * string))
    (acc : nat * list (string * string)) : M (nat * list (string * string)) :=
  match entries with
  | [] => mret acc
  | entry :: rest => acc' ← restore_entry entry acc; undo_loop rest acc'
  end.

Definition undo_report (restored : nat) (failed : list (string * string))
    : list string :=
  ["🧚‍♀️:All changes were undone.";
   "Restored: " +:+ pretty restored +:+ "   Failed: " +:+ pretty (length failed)]
  ++ match failed with
     | [] => []
     | _ =>
         ["Failed to restore:"]
         ++ ((λ f, "  - " +:+ f.1 +:+ " (" +:+ f.2 +:+ ")") <$> take 10 failed)
         ++ (if bool_decide (10 < length failed)
             then ["  ... and " +:+ pretty (length failed - 10) +:+ " more"]
             else [])
     end.

Definition undo_moves : M () :=
  ledger ← gets LAST_MOVES;
  match ledger with
  | [] => modify (set_preview ["Nothing to undo."])
  | _ =>
      (* for final_path, original_path in reversed(LAST_MOVES) *)
      r ← undo_loop (rev ledger) (0, []);
      modify (set_preview (undo_report r.1 r.2));;
      modify (set_LAST_MOVES []);;
      modify (set_undo_btn false)
  end.

(** ** Vocabulary of the properties *)

(** The extension set of a rule contains the lower-cased extension of [f]. *)
Definition ext_contains (r : Rule) (f : Path) : Prop :=
  lower (Path.suffix f) ∈ exts_of r.

Global Instance ext_contains_dec r f : Decision (ext_contains r f).
Proof. unfold ext_contains. apply _. Defined.

(** The test of the planner's inner loop. *)
Definition passes (r : Rule) (f : Path) : bool :=
  bool_decide (exts_of r ≠ ∅) && truthy (action_move_to r)
  && bool_decide (lower (Path.suffix f) ∈ exts_of r).

(** The plan entry a rule gives a file. *)
Definition entry_of (r : Rule) (f tgt : Path) : planned_move :=
  (f,
   tgt // Path.of_string (default "" (action_move_to r))
       // Path.of_string (Path.name f),
   default "rule" (name r)).

(** First-match-wins as the specification words it: the first rule whose
    extension set contains the extension decides, whatever its action. *)
Definition spec_first_match (rs : list Rule) (f tgt : Path)
    : list planned_move :=
  match list_find (λ r, ext_contains r f) rs with
  | Some (_, r) => [entry_of r f tgt]
  | None => []
  end.

(** [tgt in f.parents], the test of the planner: [f] has the anchor of
    [tgt], and the components of [tgt] followed by at least one more,
    component for component ([".."] is a component like any other). *)
Definition among_parents (tgt f : Path) : Prop :=
  Path.root f = Path.root tgt ∧ ∃ l, l ≠ [] ∧ Path.parts f = Path.parts tgt ++ l.

(** A path lies inside the subtree of [tgt] on the file system [w]: the
    place it names is below the place [tgt] names. *)
Definition inside (w : FS) (tgt f : Path) : Prop :=
  FS.is_proper_prefix (FS.resolve w tgt) (FS.resolve w f) = true.

(** The files the planner looks at: regular files outside the target. *)
Definition considered (w : FS) (tgt f : Path) : Prop :=
  FS.is_file w f = true ∧ tgt ∉ Path.parents f.

Global Instance considered_dec w tgt f : Decision (considered w tgt f).
Proof. unfold considered. apply _. Defined.

(** The plan as a function of the rule set, the tree and the source root. *)
Definition planned_of (cfg : Config) (w : FS) (src : Path)
    : list planned_move :=
  let tgt := _resolve_target cfg src in
  flat_map (λ f, match_rules (rules cfg) f tgt [])
           (filter (considered w tgt) (FS.rglob w src)).

(** The names the collision loop tries: the path itself, then the path with
    [token 1], [token 2], ... put between stem and extension. *)
Definition candidate (token : nat → string) (base : Path) (i : nat) : Path :=
  match i with
  | O => base
  | S _ =>
      {| Path.root := Path.root base;
         Path.parts := removelast (Path.parts base)
                       ++ [Path.stem base +:+ token i +:+ Path.suffix base] |}
  end.

(** [c] is the name the collision loop settles on for [base] in [w]: the
    first of the candidates of which [exists()] says [False], having said
    [True] of all before it. *)
Definition first_free (token : nat → string) (w : FS) (base c : Path) : Prop :=
  ∃ k, c = candidate token base k
       ∧ FS.path_exists w c = Ok false
       ∧ ∀ j, j < k → FS.path_exists w (candidate token base j) = Ok true.

(** The collision loop for [base] in [w] is left by the exception [e]: the
    candidates before the [k]-th exist, and either [exists()] raises [e] on
    the [k]-th, or the [k]-th exists too and [with_name] raises [e] instead
    of building the next one. *)
Inductive loop_raises (token : nat → string) (w : FS) (base : Path) (e : exn)
    : Prop :=
  | raises_in_exists k :
      (∀ j, j < k → FS.path_exists w (candidate token base j) = Ok true) →
      FS.path_exists w (candidate token base k) = Raise e →
      loop_raises token w base e
  | raises_in_with_name k :
      (∀ j, j ≤ k → FS.path_exists w (candidate token base j) = Ok true) →
      Path.with_name (candidate token base k)
        (Path.stem base +:+ token (S k) +:+ Path.suffix base) = Raise e →
      loop_raises token w base e.


(** What undoing one ledger entry came to. *)
Inductive restore_outcome :=
  | Restored (c : Path)
  | NotRestored (e : exn).

(** Undoing one ledger entry [(fp, op)] on the file system.  The entry is
    restored when the parent of its original path could be made, the
    collision loop settled on [c] and [shutil.move(final, c)] went through:
    the file is then at [c].  It is not restored only when one of these
    three raised: [mkdir], leaving the directories it had made; the
    collision loop; or [shutil.move], which then has moved nothing. *)
Inductive restore_step
    : FS → string * string → restore_outcome → FS → Prop :=
  | restore_moved w w1 w2 fp op c :
      FS.mkdir_parents w (Path.parent (Path.of_string op)) = (Ok (), w1) →
      first_free undone w1 (Path.of_string op) c →
      FS.shutil_move w1 (Path.of_string fp) c = Ok w2 →
      restore_step w (fp, op) (Restored c) w2
  | restore_mkdir_failed w w1 fp op e :
      FS.mkdir_parents w (Path.parent (Path.of_string op)) = (Raise e, w1) →
      restore_step w (fp, op) (NotRestored e) w1
  | restore_loop_failed w w1 fp op e :
      FS.mkdir_parents w (Path.parent (Path.of_string op)) = (Ok (), w1) →
      loop_raises undone w1 (Path.of_string op) e →
      restore_step w (fp, op) (NotRestored e) w1
  | restore_move_failed w w1 fp op c e :
      FS.mkdir_parents w (Path.parent (Path.of_string op)) = (Ok (), w1) →
      first_free undone w1 (Path.of_string op) c →
      FS.shutil_move w1 (Path.of_string fp) c = Raise e →
      restore_step w (fp, op) (NotRestored e) w1.

(** A pass over ledger entries in the order given: every entry is tried,
    whatever became of the ones before it. *)
Inductive undo_run : FS → list (string * string) → list restore_outcome → FS → Prop :=
  | undo_run_nil w : undo_run w [] [] w
  | undo_run_cons w w1 w' entry o rest outs :
      restore_step w entry o w1 →
      undo_run w1 rest outs w' →
      undo_run w (entry :: rest) (o :: outs) w'.

Fixpoint restored_count (outs : list restore_outcome) : nat :=
  match outs with
  | [] => 0
  | Restored _ :: outs' => S (restored_count outs')
  | NotRestored _ :: outs' => restored_count outs'
  end.

(** The [failed] list of [undo_moves]: name of the final path and class of
    the error, for the entries not restored. *)
Fixpoint failures (entries : list (string * string))
    (outs : list restore_outcome) : list (string * string) :=
  match entries, outs with
  | (fp, _) :: entries', NotRestored e :: outs' =>
      (Path.name (Path.of_string fp), exn_name e) :: failures entries' outs'
  | _ :: entries', Restored _ :: outs' => failures entries' outs'
  | _, _ => []
  end.

(** What executing one planned move came to. *)
Inductive item_outcome :=
  | Moved (c : Path)
  | Skipped
  | Failed (c : Path) (e : exn).

(** One planned move on the file system: the parent of the destination is
    made; source and destination resolving to the same place is a skip;
    otherwise the collision loop settles on [c] and [shutil.move(srcf, c)]
    either goes through or raises, in which case nothing is moved. *)
Inductive item_step : FS → planned_move → item_outcome → FS → Prop :=
  | step_skipped w w1 srcf dstf rname :
      FS.mkdir_parents w (Path.parent dstf) = (Ok (), w1) →
      FS.resolve w1 srcf = FS.resolve w1 dstf →
      item_step w (srcf, dstf, rname) Skipped w1
  | step_moved w w1 w2 srcf dstf rname c :
      FS.mkdir_parents w (Path.parent dstf) = (Ok (), w1) →
      FS.resolve w1 srcf ≠ FS.resolve w1 dstf →
      first_free numbered w1 dstf c →
      FS.shutil_move w1 srcf c = Ok w2 →
      item_step w (srcf, dstf, rname) (Moved c) w2
  | step_failed w w1 srcf dstf rname c e :
      FS.mkdir_parents w (Path.parent dstf) = (Ok (), w1) →
      FS.resolve w1 srcf ≠ FS.resolve w1 dstf →
      first_free numbered w1 dstf c →
      FS.shutil_move w1 srcf c = Raise e →
      item_step w (srcf, dstf, rname) (Failed c e) w1.

(** A batch: the items in plan order, every one of them processed. *)
Inductive apply_run : FS → list planned_move → list item_outcome → FS → Prop :=
  | apply_run_nil w : apply_run w [] [] w
  | apply_run_cons w w1 w' item o rest outs :
      item_step w item o w1 →
      apply_run w1 rest outs w' →
      apply_run w (item :: rest) (o :: outs) w'.

(** The line the log gets for an item. *)
Definition log_line (item : planned_move) (o : item_outcome) : string :=
  let srcf := item.1.1 in
  match o with
  | Moved c =>
      "MOVED" +:+ tab +:+ Path.to_string srcf +:+ " -> " +:+ Path.to_string c +:+ nl
  | Skipped => "SKIPPED" +:+ tab +:+ Path.to_string srcf +:+ nl
  | Failed c e =>
      "FAILED" +:+ tab +:+ Path.to_string srcf +:+ " -> " +:+ Path.to_string c
        +:+ " (" +:+ exn_name e +:+ ": " +:+ exn_detail e +:+ ")" +:+ nl
  end.

Fixpoint log_lines (plan : list planned_move) (outs : list item_outcome) : string :=
  match plan, outs with
  | item :: plan', o :: outs' => log_line item o +:+ log_lines plan' outs'
  | _, _ => ""
  end.

(** The counters and lists of [apply_moves] after an item. *)
Definition tally_step (item : planned_move) (o : item_outcome) (t : tally) : tally :=
  let srcf := item.1.1 in
  match o with
  | Moved c =>
      mkTally (S (moved t)) (skipped t) (failed t)
        (session_moves t ++ [(Path.to_string c, Path.to_string srcf)])
  | Skipped =>
      mkTally (moved t) (skipped t ++ [Path.name srcf]) (failed t) (session_moves t)
  | Failed c e =>
      mkTally (moved t) (skipped t) (failed t ++ [(Path.name srcf, exn_name e)])
        (session_moves t)
  end.

Fixpoint tally_run (plan : list planned_move) (outs : list item_outcome)
    (t : tally) : tally :=
  match plan, outs with
  | item :: plan', o :: outs' => tally_run plan' outs' (tally_step item o t)
  | _, _ => t
  end.

(** One record [(finalPath, originalPath)] for every move that went
    through, in plan order. *)
Fixpoint ledger_of (plan : list planned_move) (outs : list item_outcome)
    : list (string * string) :=
  match plan, outs with
  | item :: plan', Moved c :: outs' =>
      (Path.to_string c, Path.to_string item.1.1) :: ledger_of plan' outs'
  | _ :: plan', _ :: outs' => ledger_of plan' outs'
  | _, _ => []
  end.

Fixpoint count_moved (outs : list item_outcome) : nat :=
  match outs with
  | [] => 0
  | Moved _ :: outs' => S (count_moved outs')
  | _ :: outs' => count_moved outs'
  end.
Fixpoint count_skipped (outs : list item_outcome) : nat :=
  match outs with
  | [] => 0
  | Skipped :: outs' => S (count_skipped outs')
  | _ :: outs' => count_skipped outs'
  end.
Fixpoint count_failed (outs : list item_outcome) : nat :=
  match outs with
  | [] => 0
  | Failed _ _ :: outs' => S (count_failed outs')
  | _ :: outs' => count_failed outs'
  end.

Definition log_header (ts : string) (sel : option string) : string :=
  "[Apply] " +:+ ts +:+ nl +:+ "Source: " +:+ default "None" sel +:+ nl +:+ nl.

Definition log_footer (outs : list item_outcome) : string :=
  nl +:+ "SUMMARY" +:+ nl +:+ "Moved: " +:+ pretty (count_moved outs)
     +:+ "  Skipped: " +:+ pretty (count_skipped outs)
     +:+ "  Failed: " +:+ pretty (count_failed outs) +:+ nl.




(** ** Concrete rules, trees and states used as examples *)

Module Ex.

Definition img : Rule := mkRule (Some "img") [".jpg"] (Some "Images").
Definition doc : Rule := mkRule (Some "doc") [".pdf"] (Some "PDFs").

(** A rule that matches [.jpg] but has no [move_to], before one that has. *)
Definition no_action : Rule := mkRule (Some "a") [".jpg"] None.
Definition pics : Rule := mkRule (Some "b") [".JPG"] (Some "Pics").

Definition photo : Path := Path.of_string "/s/x.Jpg".
Definition organized : Path := Path.of_string "/s/Organized".

(** A state in which [/s/Organized/Images] already holds [a.jpg] and
    [a (1).jpg]. *)
Definition crowded : State :=
  mkState (mkConfig None [img; doc]) (Some "/s") [] []
    (FS.mk (Dir [("s", Dir [("a.jpg", File "new");
                            ("Organized", Dir [("Images",
                               Dir [("a.jpg", File "old");
                                    ("a (1).jpg", File "older")])])])]) [])
    ∅ [] false false.

(** The example of the specification: [a.jpg], [b.pdf] and [c.txt] in
    [/s], the rules [img] and [doc], no target setting. *)
Definition fresh : State :=
  mkState (mkConfig None [img; doc]) (Some "/s") [] []
    (FS.mk (Dir [("s", Dir [("a.jpg", File "A"); ("b.pdf", File "B");
                            ("c.txt", File "C")])]) [])
    ∅ [] false false.

Definition clock : string := "20260101_120000".

Definition previewed : State := (start_arranging fresh).2.
Definition applied : State := (apply_moves clock previewed).2.
Definition undone_ : State := (undo_moves applied).2.




(** [Organized/Images] is a regular file, so the directory for the images
    cannot be made; the one for the PDFs can. *)
Definition blocked : State :=
  mkState (mkConfig None [img; doc]) (Some "/s") [] []
    (FS.mk (Dir [("s", Dir [("a.jpg", File "A"); ("b.pdf", File "B");
                            ("Organized", Dir [("Images", File "I")])])]) [])
    ∅ [] false false.

(** A ledger entry whose original directory [/s/sub] has become a regular
    file. *)
Definition stranded : State :=
  mkState (mkConfig None [img; doc]) (Some "/s") []
    [("/s/Organized/PDFs/b.pdf", "/s/sub/b.pdf")]
    (FS.mk (Dir [("s", Dir [("sub", File "S");
                            ("Organized",
                             Dir [("PDFs", Dir [("b.pdf", File "B")])])])]) [])
    ∅ [] false true.

(** The target is written with [".."]: the organization root is
    [/s/x/../Organized], the directory [/s/Organized]. *)
Definition dotted : State :=
  mkState (mkConfig (Some "x/../Organized") [img; doc]) (Some "/s") [] []
    (FS.mk (Dir [("s", Dir [("x", Dir []); ("a.jpg", File "A")])]) [])
    ∅ [] false false.

(** A name of 254 bytes.  [/s] holds a file of that name and so does
    [/s/Organized/Images], where the rule [img] sends it: with [" (1)"] put
    before the extension the name takes 258 bytes. *)
Definition long_stem : string := String.concat "" (replicate 250 "a").
Definition long_jpg : string := long_stem +:+ ".jpg".
Definition long_named : State :=
  mkState (mkConfig None [img; doc]) (Some "/s") [] []
    (FS.mk (Dir [("s", Dir [(long_jpg, File "A"); ("b.pdf", File "B");
                            ("Organized",
                             Dir [("Images", Dir [(long_jpg, File "old")])])])]) [])
    ∅ [] false false.

End Ex.

(** ** Folder choice, start-up and the event loop *)

Definition set_selected_folder (x : option string) (s : State) : State :=
  mkState (CONFIG s) x (PLANNED s) (LAST_MOVES s) (fs s) (logs s)
          (preview s) (apply_btn s) (undo_btn s).

(** [choose_folder]; [folder] is what [QFileDialog.getExistingDirectory]
    returned, the empty string when the dialog was cancelled.  The label is
    a widget no handler reads: the command returns the text it is set to. *)
Definition choose_folder (folder : string) : M string :=
  if truthy (Some folder) then
    modify (set_selected_folder (Some folder));;
    modify (set_preview
      ["🧚‍♀️:Click " +:+ dquote +:+ "Preview Moves" +:+ dquote
         +:+ " to see how your files will be organized."]);;
    modify (set_apply_btn false);;
    mret ("Selected: " +:+ folder)
  else
    modify (set_preview
      ["🧚‍♀️:Click " +:+ dquote +:+ "Choose Folder" +:+ dquote
         +:+ " and select the folder you want to organize."]);;
    mret "No folder selected.".

(** The state the module-level code leaves: the configuration as loaded,
    no folder, no plan, no ledger, both buttons disabled and the hint in the
    preview.  The tree and the files of the log directory are whatever they
    are when the program starts. *)
Definition startup (cfg : Config) (w : FS) (L : gmap string string) : State :=
  mkState cfg None [] [] w L
    ["🧚‍♀️:Click " +:+ dquote +:+ "Choose Folder" +:+ dquote
       +:+ " and select the folder you want to organize."]
    false false.

(** What can happen while the window is open: a click on one of the four
    buttons, or a change of the file system from outside.  The two buttons
    that are always enabled are [choose_btn] and [start_btn]; a click on
    [apply_btn] or [undo_btn] reaches its handler only when the button is
    enabled.  An exception that leaves a handler is reported by Qt and the
    program goes on with the state the handler reached. *)
Inductive event :=
  | ChooseFolder (folder : string)
  | PreviewMoves
  | ApplyMoves (ts : string)
  | UndoClick
  | Outside (w : FS).

Definition fire (ev : event) (st : State) : State :=
  match ev with
  | ChooseFolder folder => (choose_folder folder st).2
  | PreviewMoves => (start_arranging st).2
  | ApplyMoves ts => if apply_btn st then (apply_moves ts st).2 else st
  | UndoClick => if undo_btn st then (undo_moves st).2 else st
  | Outside w => set_fs w st
  end.

Inductive reachable (cfg : Config) : State → Prop :=
  | reach_startup w L : reachable cfg (startup cfg w L)
  | reach_fire st ev : reachable cfg st → reachable cfg (fire ev st).

(** ** Vocabulary of the further properties *)

(** [st1] differs from [st] at most in the file system and the log files. *)
Definition only_fs_and_logs (st st1 : State) : Prop :=
  st1 = set_logs (logs st1) (set_fs (fs st1) st).

(** A command all of whose runs change the file system and the logs only. *)
Definition framed {A} (m : M A) : Prop := ∀ st, only_fs_and_logs st (m st).2.

(** Why the loop of [apply_moves] was left at an item: its destination
    directory could not be made, or the collision loop raised, in
    [exists()] or in [with_name].  [w'] is the file system at that
    moment. *)
Inductive abort_cause (w : FS) (item : planned_move) (e : exn) (w' : FS) : Prop :=
  | abort_mkdir :
      FS.mkdir_parents w (Path.parent item.1.2) = (Raise e, w') →
      abort_cause w item e w'
  | abort_loop :
      FS.mkdir_parents w (Path.parent item.1.2) = (Ok (), w') →
      FS.resolve w' item.1.1 ≠ FS.resolve w' item.1.2 →
      loop_raises numbered w' item.1.2 e →
      abort_cause w item e w'.

(** What holds between events of the window opened on [cfg]. *)
Record ui_invariant (cfg : Config) (st : State) : Prop := {
  inv_config : CONFIG st = cfg;
  inv_folder : selected_folder st ≠ Some "";
  inv_undo : undo_btn st = bool_decide (LAST_MOVES st ≠ []);
  inv_apply :
    apply_btn st = true →
    PLANNED st ≠ []
    ∧ ∃ folder w,
        selected_folder st = Some folder
        ∧ PLANNED st = planned_of cfg w (Path.of_string folder) }.

(** A parsed path: its anchor is one of the three of POSIX and every
    component is a name (not empty, not ["."], free of ["/"]). *)
Definition path_wf (p : Path) : Prop :=
  (Path.root p = "" ∨ Path.root p = "/" ∨ Path.root p = "//")
  ∧ Forall (λ c, c ≠ "" ∧ c ≠ "." ∧ string_mem "/" c = false) (Path.parts p).

Global Instance path_wf_dec (p : Path) : Decision (path_wf p).
Proof. unfold path_wf. apply _. Defined.


(** A location holds a directory. *)
Definition dir_at (t : node) (l : list string) : bool :=
  match get_node t l with
  | Some (Dir _) => true
  | _ => false
  end.

(** The working directory of the process is a directory of the tree (and
    with it the root). *)
Definition fs_wf (w : FS) : bool := dir_at (FS.tree w) (FS.cwd w).

(** Two lookups agree up to what a directory holds. *)
Definition same_kind (x y : option node) : Prop :=
  match x, y with
  | None, None => True
  | Some (File d), Some (File d') => d = d'
  | Some (Dir _), Some (Dir _) => True
  | _, _ => False
  end.

(** A string of ASCII characters: every byte is below 128.  On such
    strings [lower] is [str.lower()]. *)
Fixpoint is_ascii (s : string) : bool :=
  match s with
  | EmptyString => true
  | String c s' => (nat_of_ascii c <? 128)%nat && is_ascii s'
  end.

(** * Properties *)

(** ** Strings *)

Lemma append_cons (c : ascii) (s t : string) :
  String c s +:+ t = String c (s +:+ t).
Proof. reflexivity. Qed.

Lemma append_nil_l (s : string) : "" +:+ s = s.
Proof. reflexivity. Qed.

Lemma append_nil_r (s : string) : s +:+ "" = s.
Proof. induction s as [|c s IH]; [done | by rewrite append_cons, IH]. Qed.

Lemma append_assoc (s1 s2 s3 : string) : (s1 +:+ s2) +:+ s3 = s1 +:+ (s2 +:+ s3).
Proof. induction s1 as [|c s1 IH]; [done | by rewrite !append_cons, IH]. Qed.

Lemma length_append (s1 s2 : string) :
  String.length (s1 +:+ s2) = String.length s1 + String.length s2.
Proof.
  induction s1 as [|c s1 IH]; [done |]. rewrite append_cons. simpl. by rewrite IH.
Qed.

Lemma append_inj_r (s1 s2 t : string) : s1 +:+ t = s2 +:+ t → s1 = s2.
Proof.
  revert s2. induction s1 as [|c s1 IH]; intros [|d s2] H;
    rewrite ?append_cons, ?append_nil_l in H.
  - done.
  - apply (f_equal String.length) in H. simpl in H.
    rewrite length_append in H. lia.
  - apply (f_equal String.length) in H. simpl in H.
    rewrite length_append in H. lia.
  - injection H as -> H. f_equal. by apply IH.
Qed.

Lemma string_mem_append (c : ascii) (s1 s2 : string) :
  string_mem c (s1 +:+ s2) = string_mem c s1 || string_mem c s2.
Proof.
  induction s1 as [|d s1 IH]; [done |]. rewrite append_cons. simpl.
  rewrite IH. by rewrite orb_assoc.
Qed.

Lemma substring_split (i : nat) (s : string) :
  i ≤ String.length s →
  String.substring 0 i s +:+ String.substring i (String.length s - i) s = s.
Proof.
  revert i. induction s as [|c s IH]; intros [|i] Hi; simpl in *; try lia.
  - done.
  - rewrite append_nil_l. f_equal. clear IH Hi.
    induction s as [|d s IH]; simpl; [done | by f_equal].
  - rewrite append_cons. f_equal. apply IH. lia.
Qed.




(** ** Pure paths *)

Lemma stem_suffix (p : Path) : Path.stem p +:+ Path.suffix p = Path.name p.
Proof.
  unfold Path.stem, Path.suffix, Path.dot_index.
  destruct (rfind_dot (Path.name p)) as [i|]; [|apply append_nil_r].
  repeat case_bool_decide; simpl; try apply append_nil_r.
  apply substring_split. lia.
Qed.

(** The components of a parsed path are names: not empty, not ["."], and
    free of the separator. *)
Lemma split_on_no_sep (sep : ascii) (s : string) :
  Forall (λ c, string_mem sep c = false) (split_on sep s).
Proof.
  induction s as [|c s IH]; simpl; [by repeat constructor|].
  case_decide as Hc; [by constructor|].
  destruct (split_on sep s) as [|h t]; simpl.
  - repeat constructor. simpl. by rewrite bool_decide_false.
  - apply Forall_cons in IH as [Hh Ht]. constructor; [|done].
    simpl. by rewrite bool_decide_false.
Qed.

Lemma of_string_name (s : string) :
  Path.parts (Path.of_string s) ≠ [] →
  Path.name (Path.of_string s) ≠ ""
  ∧ string_mem "/" (Path.name (Path.of_string s)) = false.
Proof.
  unfold Path.name, Path.of_string. simpl.
  pose proof (split_on_no_sep "/" s) as Hsep.
  set (l := filter _ _). intros Hl.
  assert (Forall (λ c, c ≠ "" ∧ string_mem "/" c = false) l) as Hall.
  { apply Forall_forall. intros c [[? _] Hc]%list_elem_of_filter.
    split; [done|]. by eapply Forall_forall in Hsep. }
  destruct (exists_last Hl) as (l' & c & ->). rewrite last_last.
  by apply Forall_app in Hall as [_ [? _]%Forall_cons].
Qed.

(** [q in p.parents] says that [q] is a proper ancestor of [p], component by
    component. *)
Lemma elem_of_ancestors (r : string) (rp : list string) (q : Path) :
  q ∈ Path.ancestors r rp ↔
  Path.root q = r ∧ ∃ l, l ≠ [] ∧ rev rp = Path.parts q ++ l.
Proof.
  induction rp as [|c rp IH]; simpl.
  - split; [by intros ?%elem_of_nil|].
    intros [_ (l & Hl & H)]. symmetry in H. by apply app_eq_nil in H as [_ ?].
  - rewrite elem_of_cons, IH. split.
    + intros [-> | [Hr (l & Hl & H)]]; simpl.
      * split; [done|]. by exists [c].
      * split; [done|]. exists (l ++ [c]). split; [by destruct l|].
        by rewrite H, (assoc_L (++)).
    + intros [Hr (l & Hl & H)].
      destruct (exists_last Hl) as (l' & c' & ->).
      rewrite (assoc_L (++)) in H. apply app_inj_tail in H as [H <-].
      destruct l' as [|x l'].
      * left. destruct q as [qr qp]; simpl in *. rewrite app_nil_r in H.
        by rewrite <-Hr, H.
      * right. split; [done|]. by exists (x :: l').
Qed.

Lemma elem_of_parents (q p : Path) :
  q ∈ Path.parents p ↔
  Path.root q = Path.root p ∧ ∃ l, l ≠ [] ∧ Path.parts p = Path.parts q ++ l.
Proof.
  unfold Path.parents. rewrite elem_of_ancestors.
  by rewrite rev_involutive.
Qed.

(** ** The target resolver *)

(** C8.  Resolving the organization root: [src / "Organized"] when the
    target setting is absent (missing or empty, which Python tests alike),
    [src / target] when the setting is a relative path, the setting itself
    when it is an absolute path.  [_resolve_target] is a total function of
    its two arguments: it reads no state and raises nothing. *)
Theorem resolve_target_cases (cfg : Config) (src : Path) :
  (target cfg = None ∨ target cfg = Some "" →
   _resolve_target cfg src = src // Path.of_string "Organized") ∧
  (∀ s, target cfg = Some s → s ≠ "" →
        Path.is_absolute (Path.of_string s) = false →
        _resolve_target cfg src = src // Path.of_string s
        ∧ src // Path.of_string s
          = Path.mk (Path.root src) (Path.parts src ++ Path.parts (Path.of_string s))) ∧
  (∀ s, target cfg = Some s →
        Path.is_absolute (Path.of_string s) = true →
        _resolve_target cfg src = Path.of_string s).
Proof.
  unfold _resolve_target. split; [|split].
  - by intros [-> | ->].
  - intros s -> Hs Hrel. simpl. rewrite bool_decide_true by done. simpl.
    rewrite Hrel. simpl. split; [done|]. unfold Path.join. by rewrite Hrel.
  - intros s -> Habs. simpl.
    destruct (decide (s = "")) as [-> | Hs]; [done|].
    rewrite bool_decide_true by done. simpl. by rewrite Habs.
Qed.

Lemma resolve_target_cases_witness :
  _resolve_target (mkConfig (Some "out/sorted") []) (Path.of_string "/home/u")
  = Path.of_string "/home/u" // Path.of_string "out/sorted"
  ∧ _resolve_target (mkConfig (Some "/srv/sorted") []) (Path.of_string "/home/u")
    = Path.of_string "/srv/sorted"
  ∧ _resolve_target (mkConfig None []) (Path.of_string "/home/u")
    = Path.of_string "/home/u/Organized".
Proof.
  split; [|split].
  - apply (proj1 (proj2 (resolve_target_cases
             (mkConfig (Some "out/sorted") []) (Path.of_string "/home/u")))
             "out/sorted"); [reflexivity | discriminate | reflexivity].
  - apply (proj2 (proj2 (resolve_target_cases
             (mkConfig (Some "/srv/sorted") []) (Path.of_string "/home/u")))
             "/srv/sorted"); reflexivity.
  - apply (proj1 (resolve_target_cases (mkConfig None []) (Path.of_string "/home/u"))).
    left. reflexivity.
Defined.

(** ** The planner *)

Lemma passes_iff (r : Rule) (f : Path) :
  passes r f = true ↔ ext_contains r f ∧ truthy (action_move_to r) = true.
Proof.
  unfold passes, ext_contains. rewrite !andb_true_iff, !bool_decide_eq_true.
  split; [by intros [[_ ?] ?]|]. intros [Hin Ht]. repeat split; [|done..].
  intros Hempty. rewrite Hempty in Hin. by apply not_elem_of_empty in Hin.
Qed.

Lemma match_rules_cons (r : Rule) (rest : list Rule) (f tgt : Path)
    (planned : list planned_move) :
  match_rules (r :: rest) f tgt planned
  = if passes r f then planned ++ [entry_of r f tgt]
    else match_rules rest f tgt planned.
Proof. reflexivity. Qed.

Lemma match_rules_skip (pre rest : list Rule) (f tgt : Path)
    (planned : list planned_move) :
  Forall (λ r, passes r f = false) pre →
  match_rules (pre ++ rest) f tgt planned = match_rules rest f tgt planned.
Proof.
  induction 1 as [|r pre Hr _ IH]; [done|].
  simpl app. by rewrite match_rules_cons, Hr.
Qed.

Lemma match_rules_none (rs : list Rule) (f tgt : Path)
    (planned : list planned_move) :
  Forall (λ r, passes r f = false) rs → match_rules rs f tgt planned = planned.
Proof.
  intros H. rewrite <-(app_nil_r rs). by rewrite match_rules_skip.
Qed.

Lemma match_rules_find (rs : list Rule) (f tgt : Path)
    (planned : list planned_move) :
  match_rules rs f tgt planned
  = planned ++ match List.find (λ r, passes r f) rs with
               | Some r => [entry_of r f tgt]
               | None => []
               end.
Proof.
  induction rs as [|r rs IH]; [by rewrite app_nil_r|].
  rewrite match_rules_cons. simpl. by destruct (passes r f).
Qed.

Lemma plan_loop_spec (files : list Path) (tgt : Path) (rs : list Rule)
    (planned : list planned_move) (st : State) :
  plan_loop files tgt rs planned st
  = (Ok (planned ++ flat_map (λ f, match_rules rs f tgt [])
                             (filter (considered (fs st) tgt) files)), st).
Proof.
  revert planned. induction files as [|f files IH]; intros planned.
  - simpl. by rewrite app_nil_r.
  - cbn [plan_loop]. unfold mbind, M_bind, gets at 1.
    rewrite filter_cons.
    destruct (decide (considered (fs st) tgt f)) as [[Hf Hin]|Hn].
    + rewrite Hf. simpl. rewrite bool_decide_false by done.
      rewrite IH. rewrite (match_rules_find rs f tgt planned).
      rewrite (match_rules_find rs f tgt []). simpl.
      by rewrite (assoc_L (++)).
    + destruct (FS.is_file (fs st) f) eqn:Hf; simpl; [|by rewrite IH].
      rewrite bool_decide_true; [by rewrite IH|].
      destruct (decide (tgt ∈ Path.parents f)); [done|].
      by destruct Hn.
Qed.

Lemma plan_spec (src : Path) (st : State) :
  plan src st = (Ok (planned_of (CONFIG st) (fs st) src), st).
Proof.
  unfold plan, planned_of, mbind, M_bind, gets. by rewrite plan_loop_spec.
Qed.

Lemma start_arranging_spec (st : State) :
  start_arranging st
  = (Ok (),
     if truthy (selected_folder st) then
       let src := Path.of_string (default "" (selected_folder st)) in
       match planned_of (CONFIG st) (fs st) src with
       | [] =>
           set_apply_btn false
             (set_preview ["No files to move for the current rules."] st)
       | planned =>
           set_apply_btn true
             (set_preview
                ["🧚‍♀️:Inside: '"
                   +:+ Path.to_string (_resolve_target (CONFIG st) src) +:+ "'";
                 "Files will be organized into Images / PDFs / Docs / Videos.";
                 "If you want to proceed, click " +:+ dquote +:+ "Apply Moves"
                   +:+ dquote +:+ "."]
                (set_PLANNED planned st))
       end
     else st).
Proof.
  unfold start_arranging, mbind, M_bind, gets at 1.
  destruct (truthy (selected_folder st)); [|done]. simpl.
  rewrite plan_spec. unfold gets.
  by destruct (planned_of _ _ _).
Qed.

(** C3, as worded, fails: with a rule that lists [.jpg] but has no
    [move_to] ahead of one that has, the entry for [x.Jpg] comes from the
    second rule, not from the first rule whose extension set contains the
    extension. *)
Lemma first_match_counterexample :
  match_rules [Ex.no_action; Ex.pics] Ex.photo Ex.organized []
    = [(Ex.photo, Path.of_string "/s/Organized/Pics/x.Jpg", "b")]
  ∧ spec_first_match [Ex.no_action; Ex.pics] Ex.photo Ex.organized
    = [(Ex.photo, Path.of_string "/s/Organized/x.Jpg", "a")]
  ∧ match_rules [Ex.no_action; Ex.pics] Ex.photo Ex.organized []
    ≠ spec_first_match [Ex.no_action; Ex.pics] Ex.photo Ex.organized.
Proof. by vm_compute. Qed.

(** C3, amended.  For a file the planner considers, the rules are tried in
    declared order and the first rule whose extension set contains the
    file's lower-cased extension and which has a (non-empty) [move_to]
    appends the file's one plan entry, after which no later rule is tried;
    when no rule is of that kind nothing is appended. *)
Theorem first_match_with_action (rs : list Rule) (f tgt : Path)
    (planned : list planned_move) :
  (∀ pre r post,
     rs = pre ++ r :: post →
     Forall (λ r', ¬ (ext_contains r' f ∧ truthy (action_move_to r') = true)) pre →
     ext_contains r f → truthy (action_move_to r) = true →
     match_rules rs f tgt planned = planned ++ [entry_of r f tgt]) ∧
  (Forall (λ r, ¬ ext_contains r f) rs → match_rules rs f tgt planned = planned) ∧
  (Forall (λ r, ¬ (ext_contains r f ∧ truthy (action_move_to r) = true)) rs →
     match_rules rs f tgt planned = planned).
Proof.
  assert (∀ l, Forall (λ r', ¬ (ext_contains r' f
                                ∧ truthy (action_move_to r') = true)) l →
               Forall (λ r, passes r f = false) l) as Hno.
  { intros l Hl. eapply Forall_impl; [exact Hl|]. intros r Hr.
    apply not_true_is_false. by rewrite passes_iff. }
  split; [|split].
  - intros pre r post -> Hpre Hext Hact.
    rewrite match_rules_skip by auto. rewrite match_rules_cons.
    by rewrite (proj2 (passes_iff r f)).
  - intros Hrs. apply match_rules_none, Hno.
    eapply Forall_impl; [exact Hrs|]. by intros r Hr [? _].
  - intros Hrs. by apply match_rules_none, Hno.
Qed.

Lemma first_match_with_action_witness :
  match_rules [Ex.no_action; Ex.pics; Ex.img] Ex.photo Ex.organized []
  = [] ++ [entry_of Ex.pics Ex.photo Ex.organized].
Proof.
  apply (proj1 (first_match_with_action [Ex.no_action; Ex.pics; Ex.img]
                  Ex.photo Ex.organized []) [Ex.no_action] Ex.pics [Ex.img]).
  - reflexivity.
  - repeat constructor. intros [_ H]. vm_compute in H. discriminate.
  - vm_compute. reflexivity.
  - reflexivity.
Defined.



Lemma elem_of_match_rules (rs : list Rule) (f tgt : Path) (e : planned_move) :
  e ∈ match_rules rs f tgt [] → e.1.1 = f.
Proof.
  rewrite match_rules_find. simpl.
  destruct (List.find _ rs) as [r|]; [|by intros ?%elem_of_nil].
  by intros ->%list_elem_of_singleton.
Qed.

Lemma elem_of_planned_of (cfg : Config) (w : FS) (src : Path) (e : planned_move) :
  e ∈ planned_of cfg w src →
  e.1.1 ∈ FS.rglob w src ∧ considered w (_resolve_target cfg src) e.1.1.
Proof.
  unfold planned_of. rewrite list_elem_of_In, in_flat_map.
  intros (f & Hf%list_elem_of_In & He%list_elem_of_In).
  apply elem_of_match_rules in He as ->.
  by apply list_elem_of_filter in Hf as [? ?].
Qed.

(** What the test of the planner does keep out: planning returns a plan
    (and the state as it was) in which no source has the resolved target
    among its ancestors as [pathlib] compares them, and the plan that
    [start_arranging] leaves in [PLANNED] is either this one or, when this
    one is empty, the one that was there before. *)
Lemma planned_not_among_parents (st : State) (src : Path) :
  plan src st = (Ok (planned_of (CONFIG st) (fs st) src), st)
  ∧ (∀ f dest rname,
       (f, dest, rname) ∈ planned_of (CONFIG st) (fs st) src →
       ¬ among_parents (_resolve_target (CONFIG st) src) f)
  ∧ (PLANNED (start_arranging st).2 = PLANNED st
     ∨ ∃ folder, selected_folder st = Some folder
         ∧ PLANNED (start_arranging st).2
           = planned_of (CONFIG st) (fs st) (Path.of_string folder)).
Proof.
  split_and!.
  - apply plan_spec.
  - intros f dest rname [_ [_ Hout]]%elem_of_planned_of [Hroot Hparts].
    apply Hout. simpl. apply elem_of_parents. by split.
  - rewrite start_arranging_spec. simpl.
    destruct (selected_folder st) as [folder|]; [|by left].
    destruct (truthy (Some folder)); [|by left]. simpl.
    destruct (planned_of _ _ _) eqn:Hp; [by left|].
    right. exists folder. by rewrite Hp.
Qed.

(** C4 fails on the code.  The planner compares paths component for
    component, so a target that is written with [".."] is never found among
    the ancestors of a file.  In [Ex.dotted] the target setting is
    [x/../Organized]: the first batch moves [/s/a.jpg] to
    [/s/Organized/Images/a.jpg], which lies inside the subtree of the
    organization root [/s/x/../Organized], and the next preview plans this
    very file again and enables Apply. *)
Theorem organized_output_is_replanned :
  let src := Path.of_string "/s" in
  let tgt := _resolve_target (CONFIG Ex.dotted) src in
  let f := Path.of_string "/s/Organized/Images/a.jpg" in
  let st1 := (start_arranging Ex.dotted).2 in
  let st2 := (apply_moves Ex.clock st1).2 in
  let st3 := (start_arranging st2).2 in
  tgt = Path.of_string "/s/x/../Organized"
  ∧ PLANNED st1
    = [(Path.of_string "/s/a.jpg",
        Path.of_string "/s/x/../Organized/Images/a.jpg", "img")]
  ∧ (apply_moves Ex.clock st1).1 = Ok ()
  ∧ LAST_MOVES st2 = [("/s/x/../Organized/Images/a.jpg", "/s/a.jpg")]
  ∧ FS.is_file (fs st2) f = true
  ∧ inside (fs st2) tgt f
  ∧ plan src st2
    = (Ok [(f, Path.of_string "/s/x/../Organized/Images/a.jpg", "img")], st2)
  ∧ PLANNED st3
    = [(f, Path.of_string "/s/x/../Organized/Images/a.jpg", "img")]
  ∧ apply_btn st3 = true.
Proof. vm_compute. by repeat split. Qed.


(** ** The file system *)

Lemma entry_elem_of (n : string) (es : list (string * node)) (x : node) :
  entry n es = Some x → n ∈ es.*1.
Proof.
  induction es as [|[m c] es IH]; simpl; [done|].
  case_decide as Hm; [subst; intros _; left | intros H; right; auto].
Qed.

Lemma get_node_snoc (nd : node) (d : list string) (n : string) (x : node) :
  get_node nd (d ++ [n]) = Some x →
  ∃ es, get_node nd d = Some (Dir es) ∧ entry n es = Some x.
Proof.
  revert nd. induction d as [|c d IH]; intros nd; simpl.
  - destruct nd as [|es]; [done|]. intros H. exists es. split; [done|].
    by destruct (entry n es).
  - destruct nd as [|es]; [done|]. destruct (entry c es) as [c'|]; [|done].
    simpl. apply IH.
Qed.

(** The path handed to [walk] only labels its errors. *)
Lemma walk_label (w : FS) (p p' : Path) (cur comps d : list string) :
  FS.walk w p cur comps = Ok d → FS.walk w p' cur comps = Ok d.
Proof.
  revert cur. induction comps as [|c comps IH]; intros cur; simpl; [done|].
  case_decide; [apply IH|]. destruct (FS.long_name c); [done|].
  destruct (get_node (FS.tree w) (cur ++ [c])) as [[|es]|]; try done. apply IH.
Qed.

(** An existing path whose last component is a name is an entry of the
    directory its other components walk to. *)
Lemma exists_entry (w : FS) (r : string) (pp : list string) (n : string) :
  n ≠ ".." →
  FS.exists_ w (Path.mk r (pp ++ [n])) = true →
  ∃ d es x,
    FS.walk w (Path.mk r (pp ++ [n])) (FS.start w (Path.mk r (pp ++ [n]))) pp = Ok d
    ∧ get_node (FS.tree w) d = Some (Dir es) ∧ entry n es = Some x.
Proof.
  intros Hn. unfold FS.exists_, FS.stat, FS.locate, Path.name.
  destruct (FS.long_path _); [done|]. simpl.
  rewrite removelast_last, last_last.
  destruct (pp ++ [n]) eqn:Hpp; [by destruct pp|]. rewrite <-Hpp. clear Hpp.
  destruct (FS.walk _ _ _ pp) as [d| |]; simpl; try done.
  rewrite decide_False by done. destruct (FS.long_name n); [done|]. simpl.
  destruct (get_node (FS.tree w) (d ++ [n])) as [x|] eqn:Hx; [|done].
  intros _. apply get_node_snoc in Hx as (es & ? & ?). by exists d, es, x.
Qed.

Lemma walk_no_timeout (w : FS) (p : Path) (cur comps : list string) :
  FS.walk w p cur comps ≠ Timeout.
Proof.
  revert cur. induction comps as [|c comps IH]; intros cur; simpl; [done|].
  case_decide; [apply IH|]. destruct (FS.long_name c); [done|].
  by destruct (get_node _ _) as [[|es]|].
Qed.

Lemma locate_no_timeout (w : FS) (p : Path) : FS.locate w p ≠ Timeout.
Proof.
  unfold FS.locate. destruct (FS.long_path p); [done|].
  destruct (Path.parts p); [done|].
  destruct (FS.walk _ _ _ _) eqn:Hw; simpl; try done.
  - case_decide; [done|]. by destruct (FS.long_name _).
  - by apply walk_no_timeout in Hw.
Qed.

Lemma stat_no_timeout (w : FS) (p : Path) : FS.stat w p ≠ Timeout.
Proof.
  unfold FS.stat. destruct (FS.locate w p) as [l|e|] eqn:Hl; simpl; try done.
  - by destruct (get_node _ _).
  - by apply locate_no_timeout in Hl.
Qed.

Lemma path_exists_no_timeout (w : FS) (p : Path) : FS.path_exists w p ≠ Timeout.
Proof.
  pose proof (stat_no_timeout w p). unfold FS.path_exists.
  destruct (FS.stat w p) as [nd|e|]; try done. by destruct (FS.ignore_error e).
Qed.

(** What [exists()] answers is what [os.path.exists] answers. *)
Lemma path_exists_ok (w : FS) (p : Path) (b : bool) :
  FS.path_exists w p = Ok b → FS.exists_ w p = b.
Proof.
  unfold FS.path_exists, FS.exists_. destruct (FS.stat w p) as [nd|e|]; try done.
  - by intros [= <-].
  - destruct (FS.ignore_error e); [|done]. by intros [= <-].
Qed.



(** ** The collision loop *)

Lemma with_name_inv (p q : Path) (n : string) :
  Path.with_name p n = Ok q →
  q = Path.mk (Path.root p) (removelast (Path.parts p) ++ [n]).
Proof.
  unfold Path.with_name. case_bool_decide; [done|].
  destruct (Path.valid_name n); [|done]. by intros [= <-].
Qed.

Lemma with_name_no_timeout (p : Path) (n : string) : Path.with_name p n ≠ Timeout.
Proof.
  unfold Path.with_name. case_bool_decide; [done|].
  by destruct (Path.valid_name n).
Qed.

Lemma spaced_name (n : string) :
  string_mem " " n = true → n ≠ "" ∧ n ≠ "." ∧ n ≠ "..".
Proof. intros H. split_and!; intros ->; discriminate. Qed.

Lemma next_free_unfold (fuel : nat) (token : nat → string) (base c : Path)
    (i : nat) (st : State) :
  next_free fuel token base c i st
  = match FS.path_exists (fs st) c with
    | Ok true =>
        match fuel with
        | O => (Timeout, st)
        | S fuel' =>
            match Path.with_name c (Path.stem base +:+ token i +:+ Path.suffix base) with
            | Ok c' => next_free fuel' token base c' (S i) st
            | Raise e => (Raise e, st)
            | Timeout => (Timeout, st)
            end
        end
    | Ok false => (Ok c, st)
    | Raise e => (Raise e, st)
    | Timeout => (Timeout, st)
    end.
Proof.
  destruct fuel; cbn [next_free]; unfold mbind, M_bind, exists_;
    by destruct (FS.path_exists (fs st) c) as [[]| |].
Qed.

Section collision.

Variable token : nat → string.
Hypothesis token_inj : ∀ i j, token i = token j → i = j.
Hypothesis token_space : ∀ i, string_mem " " (token i) = true.
Hypothesis token_slash : ∀ i, string_mem "/" (token i) = false.

Variable base : Path.

Let new_name (i : nat) : string :=
  Path.stem base +:+ token i +:+ Path.suffix base.

Lemma new_name_spaced (i : nat) : string_mem " " (new_name i) = true.
Proof.
  unfold new_name. rewrite !string_mem_append, token_space.
  by rewrite orb_true_r.
Qed.

Lemma new_name_inj (i j : nat) : new_name i = new_name j → i = j.
Proof.
  unfold new_name. intros H%(inj (String.app _)).
  by apply append_inj_r, token_inj in H.
Qed.

Lemma candidate_S (i : nat) :
  candidate token base (S i)
  = Path.mk (Path.root base) (removelast (Path.parts base) ++ [new_name (S i)]).
Proof. reflexivity. Qed.

Lemma candidate_with_name (m : nat) (q : Path) :
  Path.with_name (candidate token base m) (new_name (S m)) = Ok q →
  q = candidate token base (S m).
Proof.
  intros ->%with_name_inv. rewrite candidate_S. destruct m as [|m]; [done|].
  rewrite candidate_S. simpl. by rewrite removelast_last.
Qed.

(** A directory cannot hold more of the numbered names than it has
    entries. *)
Lemma siblings_bound (w : FS) (m : nat) :
  (∀ j, 1 ≤ j ≤ m → FS.path_exists w (candidate token base j) = Ok true) →
  m ≤ FS.siblings w base.
Proof.
  intros Hall. destruct m as [|m]; [lia|].
  assert (∀ j, 1 ≤ j ≤ S m →
            ∃ d es x,
              FS.walk w base (FS.start w base) (removelast (Path.parts base)) = Ok d
              ∧ get_node (FS.tree w) d = Some (Dir es)
              ∧ entry (new_name j) es = Some x) as Hent.
  { intros j Hj. specialize (Hall j Hj). apply path_exists_ok in Hall.
    destruct j as [|j]; [lia|]. rewrite candidate_S in Hall.
    apply exists_entry in Hall as (d & es & x & Hw & Hd & He);
      [|apply spaced_name, new_name_spaced].
    exists d, es, x. split_and!; [|done..].
    by apply (walk_label _ _ base) in Hw. }
  destruct (Hent 1) as (d & es & _ & Hw & Hd & _); [lia|].
  unfold FS.siblings. rewrite Hw, Hd.
  assert (new_name <$> seq 1 (S m) ⊆+ es.*1) as Hsub.
  { apply NoDup_submseteq.
    - apply NoDup_fmap_2_strong; [|apply NoDup_seq].
      intros i j _ _. apply new_name_inj.
    - intros n (j & -> & Hj%elem_of_seq)%list_elem_of_fmap.
      destruct (Hent j) as (d' & es' & x & Hw' & Hd' & He); [lia|].
      rewrite Hw in Hw'. injection Hw' as <-.
      rewrite Hd in Hd'. injection Hd' as <-.
      by eapply entry_elem_of. }
  apply submseteq_length in Hsub.
  by rewrite !length_fmap, length_seq in Hsub.
Qed.

(** The loop from its [m]-th renaming on: it stops at the first name of
    which [exists()] says [False], or with the exception of an [exists()] or
    a [with_name] call; it does not run out of fuel and leaves the state
    alone. *)
Lemma next_free_spec (fuel m : nat) (st : State) :
  (∀ j, j < m → FS.path_exists (fs st) (candidate token base j) = Ok true) →
  S (FS.siblings (fs st) base) ≤ fuel + m →
  (∃ k, m ≤ k
     ∧ next_free fuel token base (candidate token base m) (S m) st
       = (Ok (candidate token base k), st)
     ∧ FS.path_exists (fs st) (candidate token base k) = Ok false
     ∧ ∀ j, j < k → FS.path_exists (fs st) (candidate token base j) = Ok true)
  ∨ (∃ e,
       next_free fuel token base (candidate token base m) (S m) st
       = (Raise e, st)
       ∧ loop_raises token (fs st) base e).
Proof.
  revert m. induction fuel as [|fuel IH]; intros m Hm Hfuel;
    rewrite next_free_unfold;
    destruct (FS.path_exists (fs st) (candidate token base m))
      as [[]|e|] eqn:Hex;
    try (left; by exists m);
    try (right; exists e; split; [done|]; by eapply raises_in_exists);
    try (by apply path_exists_no_timeout in Hex).
  - assert (m ≤ FS.siblings (fs st) base); [|lia].
    apply siblings_bound. intros j Hj.
    destruct (decide (j = m)) as [->|]; [done|]. apply Hm. lia.
  - assert (∀ j, j ≤ m →
              FS.path_exists (fs st) (candidate token base j) = Ok true) as Hm'.
    { intros j Hj. destruct (decide (j = m)) as [->|]; [done|]. apply Hm. lia. }
    fold (new_name (S m)).
    destruct (Path.with_name (candidate token base m) (new_name (S m)))
      as [q|e|] eqn:Hq.
    + apply candidate_with_name in Hq as ->.
      destruct (IH (S m)) as [(k & Hk & Hrun & Hfree & Hbelow)
                             |(e & Hrun & Hraise)]; [|lia|..].
      { intros j Hj. apply Hm'. lia. }
      { left. exists k. split_and!; [lia|done..]. }
      { right. by exists e. }
    + right. exists e. split; [done|]. by eapply raises_in_with_name.
    + by apply with_name_no_timeout in Hq.
Qed.

Lemma available_path_spec (st : State) :
  (∃ k, available_path token base st = (Ok (candidate token base k), st)
     ∧ FS.path_exists (fs st) (candidate token base k) = Ok false
     ∧ ∀ j, j < k → FS.path_exists (fs st) (candidate token base j) = Ok true)
  ∨ (∃ e, available_path token base st = (Raise e, st)
     ∧ loop_raises token (fs st) base e).
Proof.
  unfold available_path, mbind, M_bind, gets at 1.
  destruct (next_free_spec (S (FS.siblings (fs st) base)) 0 st)
    as [(k & _ & Hrun & Hfree & Hbelow)|(e & Hrun & Hraise)];
    [intros j; lia | lia | left; by exists k | right; by exists e].
Qed.


End collision.

Lemma numbered_inj (i j : nat) : numbered i = numbered j → i = j.
Proof.
  unfold numbered. intros H%(inj (String.app _)).
  by apply append_inj_r, (inj pretty) in H.
Qed.

Lemma numbered_space (i : nat) : string_mem " " (numbered i) = true.
Proof. reflexivity. Qed.


Lemma undone_inj (i j : nat) : undone i = undone j → i = j.
Proof.
  unfold undone. intros H%(inj (String.app _)).
  by apply append_inj_r, (inj pretty) in H.
Qed.

Lemma undone_space (i : nat) : string_mem " " (undone i) = true.
Proof. reflexivity. Qed.







(** In [Ex.crowded] the loop passes [a.jpg] and [a (1).jpg] and settles on
    [a (2).jpg]. *)
Example available_path_crowded :
  (available_path numbered (Path.of_string "/s/Organized/Images/a.jpg")
     Ex.crowded).1
  = Ok (Path.of_string "/s/Organized/Images/a (2).jpg").
Proof. vm_compute. reflexivity. Qed.

(** ** Library calls return or raise *)

Lemma os_mkdir_no_timeout (w : FS) (p : Path) : FS.os_mkdir w p ≠ Timeout.
Proof.
  unfold FS.os_mkdir. destruct (Path.parts p); [done|].
  destruct (FS.locate w p) eqn:Hl; simpl; try done.
  - case_decide; [done|]. by destruct (get_node _ _).
  - by apply locate_no_timeout in Hl.
Qed.

Lemma mkdir_upto_no_timeout (w : FS) (p : Path) (k : nat) :
  (FS.mkdir_upto w p k).1 ≠ Timeout.
Proof.
  revert w. induction k as [|k IH]; intros w; cbn [FS.mkdir_upto];
    (destruct (FS.os_mkdir w _) as [w0|e|] eqn:Hm;
     [done| |by apply os_mkdir_no_timeout in Hm]);
    (destruct (FS.is_not_found e); [|by destruct (FS.is_dir _ _)]).
  - done.
  - specialize (IH w). destruct (FS.mkdir_upto w p k) as [[[]|e1|] w1]; try done.
    destruct (FS.os_mkdir w1 _) as [w2|e2|] eqn:Hm2; simpl; try done.
    + destruct (FS.is_not_found e2); [done|]. by destruct (FS.is_dir _ _).
    + by apply os_mkdir_no_timeout in Hm2.
Qed.

Lemma mkdir_parents_cases (w : FS) (p : Path) :
  (∃ w1, FS.mkdir_parents w p = (Ok (), w1))
  ∨ (∃ e w1, FS.mkdir_parents w p = (Raise e, w1)).
Proof.
  pose proof (mkdir_upto_no_timeout w p (length (Path.parts p))) as H.
  unfold FS.mkdir_parents. destruct (FS.mkdir_upto _ _ _) as [[[]|e|] w1].
  - left. by exists w1.
  - right. by exists e, w1.
  - done.
Qed.

Lemma os_rename_no_timeout (w : FS) (src dst : Path) :
  FS.os_rename w src dst ≠ Timeout.
Proof.
  unfold FS.os_rename.
  destruct (FS.locate w src) as [ls|e|] eqn:Hs; simpl; try done;
    [|by apply locate_no_timeout in Hs].
  destruct (get_node (FS.tree w) ls) as [nd|]; [|done].
  destruct (FS.locate w dst) as [ld|e|] eqn:Hd; simpl; try done;
    [|by apply locate_no_timeout in Hd].
  repeat case_decide; try done.
  destruct (FS.is_proper_prefix ls ld); [done|].
  destruct (get_node (FS.tree w) ld) as [[|[|]]|], nd; done.
Qed.

Lemma shutil_move_no_timeout (w : FS) (src dst : Path) :
  FS.shutil_move w src dst ≠ Timeout.
Proof.
  assert (∀ d, FS.rename_or_fail w src d ≠ Timeout) as Hr.
  { intros d. unfold FS.rename_or_fail.
    destruct (FS.os_rename w src d) eqn:Hm; try done.
    - by destruct (_ && _).
    - by apply os_rename_no_timeout in Hm. }
  unfold FS.shutil_move. destruct (FS.is_dir w dst); [|apply Hr].
  destruct (FS.samefile w src dst); [apply os_rename_no_timeout|].
  destruct (FS.exists_ w _); [done|apply Hr].
Qed.

(** ** Undo *)

Lemma set_fs_id (st : State) : set_fs (fs st) st = st.
Proof. by destruct st. Qed.

Lemma restore_entry_spec (fp op : string) (acc : nat * list (string * string))
    (st : State) :
  ∃ o w1,
    restore_step (fs st) (fp, op) o w1
    ∧ restore_entry (fp, op) acc st
      = (Ok (acc.1 + restored_count [o], acc.2 ++ failures [(fp, op)] [o]),
         set_fs w1 st).
Proof.
  unfold restore_entry, try_except, mbind, M_bind, mkdir.
  destruct (mkdir_parents_cases (fs st) (Path.parent (Path.of_string op)))
    as [[w1 Hmk]|(e & w1 & Hmk)]; rewrite Hmk; simpl.
  2: { exists (NotRestored e), w1. split; [by constructor|].
       simpl. by rewrite Nat.add_0_r. }
  destruct (available_path_spec undone undone_inj undone_space
              (Path.of_string op) (set_fs w1 st))
    as [(k & Hrun & Hfree & Hbelow)|(e & Hrun & Hraise)]; rewrite Hrun.
  2: { exists (NotRestored e), w1. split; [by eapply restore_loop_failed|].
       simpl. by rewrite Nat.add_0_r. }
  unfold move. simpl.
  destruct (FS.shutil_move w1 (Path.of_string fp) _) as [w2|e|] eqn:Hmv.
  - exists (Restored (candidate undone (Path.of_string op) k)), w2. split.
    + eapply restore_moved; [done| |done]. by exists k.
    + simpl. by rewrite Nat.add_1_r, app_nil_r.
  - exists (NotRestored e), w1. split.
    + eapply restore_move_failed; [done| |done]. by exists k.
    + simpl. by rewrite Nat.add_0_r.
  - by apply shutil_move_no_timeout in Hmv.
Qed.

Lemma undo_loop_spec (entries : list (string * string))
    (acc : nat * list (string * string)) (st : State) :
  ∃ outs w',
    undo_loop entries acc st
    = (Ok (acc.1 + restored_count outs, acc.2 ++ failures entries outs),
       set_fs w' st)
    ∧ undo_run (fs st) entries outs w'.
Proof.
  revert acc st. induction entries as [|[fp op] rest IH]; intros acc st.
  - exists [], (fs st). simpl. rewrite set_fs_id, app_nil_r, Nat.add_0_r.
    split; [by destruct acc | constructor].
  - cbn [undo_loop]. unfold mbind, M_bind.
    destruct (restore_entry_spec fp op acc st) as (o & w1 & Hstep & ->).
    destruct (IH (acc.1 + restored_count [o], acc.2 ++ failures [(fp, op)] [o])
                (set_fs w1 st)) as (outs & w' & -> & Hrun).
    exists (o :: outs), w'. split; [|by econstructor].
    assert (set_fs w' (set_fs w1 st) = set_fs w' st) as -> by done.
    destruct o as [c|e]; simpl; rewrite ?app_nil_r, <-?(assoc_L (++));
      f_equal; f_equal; f_equal; lia.
Qed.

Lemma undo_moves_spec (st : State) :
  LAST_MOVES st ≠ [] →
  ∃ outs w',
    undo_run (fs st) (rev (LAST_MOVES st)) outs w'
    ∧ undo_moves st
      = (Ok (),
         set_undo_btn false
           (set_LAST_MOVES []
              (set_preview
                 (undo_report (restored_count outs)
                    (failures (rev (LAST_MOVES st)) outs))
                 (set_fs w' st)))).
Proof.
  intros Hne. unfold undo_moves, mbind, M_bind, gets at 1.
  destruct (LAST_MOVES st) as [|m ms] eqn:Hl; [done|].
  destruct (undo_loop_spec (rev (m :: ms)) (0, []) st) as (outs & w' & -> & Hrun).
  by exists outs, w'.
Qed.




(** C6.  Undo always returns normally and leaves the ledger empty.  On an
    empty ledger it changes nothing but the preview, which it sets to
    "Nothing to undo."; so does a second undo that follows any undo. *)
Theorem undo_consumes_ledger (st : State) :
  ∃ st',
    undo_moves st = (Ok (), st')
    ∧ LAST_MOVES st' = []
    ∧ (LAST_MOVES st = [] → st' = set_preview ["Nothing to undo."] st)
    ∧ undo_moves st' = (Ok (), set_preview ["Nothing to undo."] st').
Proof.
  assert (∀ s, LAST_MOVES s = [] →
               undo_moves s = (Ok (), set_preview ["Nothing to undo."] s)) as Hempty.
  { intros s Hs. unfold undo_moves, mbind, M_bind, gets at 1. by rewrite Hs. }
  destruct (decide (LAST_MOVES st = [])) as [Hl|Hl].
  - exists (set_preview ["Nothing to undo."] st). split_and!; try done.
    + by apply Hempty.
    + by apply Hempty.
  - destruct (undo_moves_spec st Hl) as (outs & w' & _ & ->).
    eexists. by split_and!.
Qed.

Lemma undo_consumes_ledger_witness :
  ∃ st',
    undo_moves Ex.applied = (Ok (), st')
    ∧ LAST_MOVES st' = []
    ∧ (LAST_MOVES Ex.applied = [] → st' = set_preview ["Nothing to undo."] Ex.applied)
    ∧ undo_moves st' = (Ok (), set_preview ["Nothing to undo."] st').
Proof. apply (undo_consumes_ledger Ex.applied). Defined.

(** ** The executor *)

Lemma logs_append (lf content txt : string) (L : gmap string string) (st : State) :
  logs st = <[lf := content]> L →
  <[lf := default "" (logs st !! lf) +:+ txt]> (logs st)
  = <[lf := content +:+ txt]> L.
Proof.
  intros H. rewrite H, lookup_insert_eq. simpl. by rewrite insert_insert_eq.
Qed.

Lemma apply_item_spec (lf : string) (item : planned_move) (t : tally)
    (st : State) (content : string) (L : gmap string string) :
  logs st = <[lf := content]> L →
  (∃ o w',
     item_step (fs st) item o w'
     ∧ apply_item lf item t st
       = (Ok (tally_step item o t),
          set_logs (<[lf := content +:+ log_line item o]> L) (set_fs w' st)))
  ∨ (∃ e st1, apply_item lf item t st = (Raise e, st1)).
Proof.
  intros Hlogs. destruct item as [[srcf dstf] rname].
  unfold apply_item, mbind, M_bind, mkdir.
  destruct (mkdir_parents_cases (fs st) (Path.parent dstf))
    as [[w1 Hmk]|(e & w1 & Hmk)]; rewrite Hmk; simpl; [|right; by eexists _, _].
  unfold resolve, gets. simpl.
  destruct (decide (FS.resolve w1 srcf = FS.resolve w1 dstf)) as [Heq|Hne].
  - rewrite (logs_append lf content _ L st Hlogs).
    left. exists Skipped, w1. split; [by econstructor|done].
  - destruct (available_path_spec numbered numbered_inj numbered_space
                dstf (set_fs w1 st))
      as [(k & Hrun & Hfree & Hbelow)|(e & Hrun & _)];
      rewrite Hrun; [|right; by eexists _, _].
    unfold try_except, move. simpl.
    destruct (FS.shutil_move w1 srcf _) as [w2|e|] eqn:Hmv; simpl.
    + rewrite (logs_append lf content _ L st Hlogs).
      left. exists (Moved (candidate numbered dstf k)), w2. split; [|done].
      eapply step_moved; try done. by exists k.
    + rewrite (logs_append lf content _ L st Hlogs).
      left. exists (Failed (candidate numbered dstf k) e), w1. split; [|done].
      eapply step_failed; try done. by exists k.
    + by apply shutil_move_no_timeout in Hmv.
Qed.

Lemma apply_loop_spec (lf : string) (plan : list planned_move) (t : tally)
    (st : State) (content : string) (L : gmap string string) :
  logs st = <[lf := content]> L →
  (∃ outs w',
     apply_run (fs st) plan outs w'
     ∧ apply_loop lf plan t st
       = (Ok (tally_run plan outs t),
          set_logs (<[lf := content +:+ log_lines plan outs]> L) (set_fs w' st)))
  ∨ (∃ e st1, apply_loop lf plan t st = (Raise e, st1)).
Proof.
  revert t st content. induction plan as [|item rest IH]; intros t st content Hlogs.
  - left. exists [], (fs st). split; [constructor|]. simpl.
    rewrite append_nil_r, <-Hlogs. by destruct st.
  - cbn [apply_loop]. unfold mbind, M_bind.
    destruct (apply_item_spec lf item t st content L Hlogs)
      as [(o & w1 & Hstep & ->)|(e & st1 & ->)]; [|right; by eexists _, _].
    destruct (IH (tally_step item o t)
                (set_logs (<[lf := content +:+ log_line item o]> L) (set_fs w1 st))
                (content +:+ log_line item o) eq_refl)
      as [(outs & w' & Hrun & ->)|(e & st1 & ->)]; [|right; by eexists _, _].
    left. exists (o :: outs), w'. split; [by econstructor|].
    simpl. by rewrite append_assoc.
Qed.

Lemma apply_run_length (w w' : FS) (plan : list planned_move)
    (outs : list item_outcome) :
  apply_run w plan outs w' → length outs = length plan.
Proof. induction 1; simpl; congruence. Qed.

Lemma tally_run_spec (plan : list planned_move) (outs : list item_outcome)
    (t : tally) :
  length outs = length plan →
  moved (tally_run plan outs t) = moved t + count_moved outs
  ∧ length (skipped (tally_run plan outs t)) = length (skipped t) + count_skipped outs
  ∧ length (failed (tally_run plan outs t)) = length (failed t) + count_failed outs
  ∧ session_moves (tally_run plan outs t) = session_moves t ++ ledger_of plan outs.
Proof.
  revert outs t. induction plan as [|item plan IH]; intros [|o outs] t Hlen;
    simpl in Hlen; try done.
  - simpl. rewrite app_nil_r. split_and!; done || lia.
  - injection Hlen as Hlen. simpl.
    destruct (IH outs (tally_step item o t) Hlen) as (-> & -> & -> & ->).
    destruct o; simpl; rewrite ?length_app, <-?(assoc_L (++)); simpl;
      split_and!; done || lia.
Qed.


Lemma apply_moves_spec (ts : string) (st : State) :
  PLANNED st ≠ [] →
  (∃ outs st',
     apply_moves ts st = (Ok (), st')
     ∧ apply_run (fs st) (PLANNED st) outs (fs st')
     ∧ logs st'
       = <[log_name ts := log_header ts (selected_folder st)
                          +:+ log_lines (PLANNED st) outs +:+ log_footer outs]>
           (logs st)
     ∧ LAST_MOVES st' = ledger_of (PLANNED st) outs
     ∧ PLANNED st' = []
     ∧ undo_btn st' = bool_decide (ledger_of (PLANNED st) outs ≠ [])
     ∧ apply_btn st' = false)
  ∨ (∃ e st1, apply_moves ts st = (Raise e, st1)).
Proof.
  intros Hne. remember (apply_moves ts st) as r eqn:Hr.
  unfold apply_moves, mbind, M_bind, gets at 1 in Hr.
  destruct (PLANNED st) as [|item rest] eqn:Hplan; [done|].
  rewrite <-Hplan in *. unfold gets at 1, open_w, write at 1, modify in Hr.
  cbv beta iota in Hr.
  rewrite (logs_append (log_name ts) "" _ (logs st)
             (set_logs (<[log_name ts:=""]> (logs st)) st) eq_refl) in Hr.
  rewrite append_nil_l in Hr. fold (log_header ts (selected_folder st)) in Hr.
  set (st0 := set_logs _ (set_logs _ st)) in Hr.
  destruct (apply_loop_spec (log_name ts) (PLANNED st) (mkTally 0 [] [] []) st0
              (log_header ts (selected_folder st)) (logs st) eq_refl)
    as [(outs & w' & Hrun & Hloop)|(e & st1 & Hloop)];
    rewrite Hloop in Hr; cbv beta iota in Hr; [|right; by eexists _, _].
  destruct (selected_folder st) as [folder|] eqn:Hsel;
    unfold raise in Hr; cbv beta iota in Hr; [|right; by eexists _, _].
  left. exists outs. eexists. split; [exact Hr|].
  pose proof (apply_run_length _ _ _ _ Hrun) as Hlen.
  destruct (tally_run_spec (PLANNED st) outs (mkTally 0 [] [] []) Hlen)
    as (Hm & Hs & Hf & Hl). simpl in Hm, Hs, Hf, Hl.
  cbn [logs fs LAST_MOVES PLANNED undo_btn apply_btn set_logs set_fs
       set_LAST_MOVES set_PLANNED set_undo_btn set_apply_btn set_preview].
  rewrite Hl.
  split_and!; try done.
  rewrite !lookup_insert_eq.
  cbn [default].
  rewrite !insert_insert_eq.
  f_equal.
  unfold counts, log_footer.
  rewrite Hm, Hs, Hf.
  unfold id. by rewrite !append_assoc.
Qed.

(** The example of the specification, run: two files are planned, moved
    and logged, [c.txt] stays; undo puts both back and empties the ledger. *)
Example spec_scenario :
  PLANNED Ex.previewed
  = [(Path.of_string "/s/a.jpg", Path.of_string "/s/Organized/Images/a.jpg", "img");
     (Path.of_string "/s/b.pdf", Path.of_string "/s/Organized/PDFs/b.pdf", "doc")]
  ∧ (apply_moves Ex.clock Ex.previewed).1 = Ok ()
  ∧ LAST_MOVES Ex.applied
    = [("/s/Organized/Images/a.jpg", "/s/a.jpg");
       ("/s/Organized/PDFs/b.pdf", "/s/b.pdf")]
  ∧ FS.stat (fs Ex.applied) (Path.of_string "/s/Organized/Images/a.jpg")
    = Ok (File "A")
  ∧ FS.stat (fs Ex.applied) (Path.of_string "/s/Organized/PDFs/b.pdf")
    = Ok (File "B")
  ∧ FS.exists_ (fs Ex.applied) (Path.of_string "/s/a.jpg") = false
  ∧ FS.exists_ (fs Ex.applied) (Path.of_string "/s/b.pdf") = false
  ∧ FS.stat (fs Ex.applied) (Path.of_string "/s/c.txt") = Ok (File "C")
  ∧ logs Ex.applied !! log_name Ex.clock
    = Some (log_header Ex.clock (Some "/s")
            +:+ "MOVED" +:+ tab +:+ "/s/a.jpg -> /s/Organized/Images/a.jpg" +:+ nl
            +:+ "MOVED" +:+ tab +:+ "/s/b.pdf -> /s/Organized/PDFs/b.pdf" +:+ nl
            +:+ nl +:+ "SUMMARY" +:+ nl
            +:+ "Moved: 2  Skipped: 0  Failed: 0" +:+ nl)
  ∧ (undo_moves Ex.applied).1 = Ok ()
  ∧ preview Ex.undone_
    = ["🧚‍♀️:All changes were undone."; "Restored: 2   Failed: 0"]
  ∧ FS.stat (fs Ex.undone_) (Path.of_string "/s/a.jpg") = Ok (File "A")
  ∧ FS.stat (fs Ex.undone_) (Path.of_string "/s/b.pdf") = Ok (File "B")
  ∧ FS.exists_ (fs Ex.undone_) (Path.of_string "/s/Organized/Images/a.jpg") = false
  ∧ LAST_MOVES Ex.undone_ = [].
Proof. vm_compute. by repeat split. Qed.

(** In [undo_moves] the [mkdir] call is inside the [try]: a parent that
    cannot be made costs the entry, not the pass. *)
Example undo_survives_mkdir_failure :
  (FS.mkdir_parents (fs Ex.stranded) (Path.of_string "/s/sub")).1
  = Raise (mkExn FileExistsError "[Errno 17] File exists: '/s/sub'")
  ∧ (undo_moves Ex.stranded).1 = Ok ()
  ∧ preview (undo_moves Ex.stranded).2
    = ["🧚‍♀️:All changes were undone."; "Restored: 0   Failed: 1";
       "Failed to restore:"; "  - b.pdf (FileExistsError)"]
  ∧ LAST_MOVES (undo_moves Ex.stranded).2 = [].
Proof. vm_compute. by repeat split. Qed.

(** A destination directory that cannot be made ends the loop: the
    exception of [mkdir] is raised outside any [try], and the items after it
    are not looked at. *)
Lemma mkdir_failure_aborts (lf : string) (srcf dstf : Path) (rname : string)
    (rest : list planned_move) (t : tally) (st : State) (e : exn) (w1 : FS) :
  FS.mkdir_parents (fs st) (Path.parent dstf) = (Raise e, w1) →
  apply_loop lf ((srcf, dstf, rname) :: rest) t st = (Raise e, set_fs w1 st).
Proof.
  intros H. cbn [apply_loop]. unfold apply_item, mbind, M_bind, mkdir.
  by rewrite H.
Qed.

(** C1 fails on the code.  In [Ex.blocked] the plan holds [a.jpg] and
    [b.pdf]; the directory for [a.jpg] cannot be made because
    [Organized/Images] is a regular file.  [apply_moves] raises
    [FileExistsError]: [b.pdf] stays where it was although its own move goes
    through when it is tried alone, the log stops after its header, and
    neither the ledger nor the plan is touched. *)
Theorem apply_aborts_when_mkdir_fails :
  let st1 := (start_arranging Ex.blocked).2 in
  let a := (Path.of_string "/s/a.jpg",
            Path.of_string "/s/Organized/Images/a.jpg", "img") in
  let b := (Path.of_string "/s/b.pdf",
            Path.of_string "/s/Organized/PDFs/b.pdf", "doc") in
  let r := apply_moves Ex.clock st1 in
  PLANNED st1 = [a; b]
  ∧ r.1 = Raise (mkExn FileExistsError
                   "[Errno 17] File exists: '/s/Organized/Images'")
  ∧ fs r.2 = fs Ex.blocked
  ∧ FS.exists_ (fs r.2) (Path.of_string "/s/b.pdf") = true
  ∧ FS.exists_ (fs r.2) (Path.of_string "/s/Organized/PDFs/b.pdf") = false
  ∧ logs r.2 !! log_name Ex.clock = Some (log_header Ex.clock (Some "/s"))
  ∧ LAST_MOVES r.2 = LAST_MOVES st1
  ∧ PLANNED r.2 = [a; b]
  ∧ (apply_moves Ex.clock (set_PLANNED [b] st1)).1 = Ok ()
  ∧ FS.exists_ (fs (apply_moves Ex.clock (set_PLANNED [b] st1)).2)
      (Path.of_string "/s/Organized/PDFs/b.pdf") = true.
Proof. vm_compute. by repeat split. Qed.




(** * Further properties *)

(** ** What the commands leave alone *)

Lemma only_fs_and_logs_refl (st : State) : only_fs_and_logs st st.
Proof. by destruct st. Qed.

Lemma only_fs_and_logs_trans (st1 st2 st3 : State) :
  only_fs_and_logs st1 st2 → only_fs_and_logs st2 st3 → only_fs_and_logs st1 st3.
Proof. unfold only_fs_and_logs. intros H12 ->. by rewrite H12. Qed.

Lemma only_fs_and_logs_fields (st st1 : State) :
  only_fs_and_logs st st1 →
  CONFIG st1 = CONFIG st ∧ selected_folder st1 = selected_folder st
  ∧ PLANNED st1 = PLANNED st ∧ LAST_MOVES st1 = LAST_MOVES st
  ∧ preview st1 = preview st ∧ apply_btn st1 = apply_btn st
  ∧ undo_btn st1 = undo_btn st.
Proof. by intros ->. Qed.

Lemma framed_ret {A} (a : A) : framed (mret a).
Proof. intros st. apply only_fs_and_logs_refl. Qed.

Lemma framed_bind {A B} (m : M A) (k : A → M B) :
  framed m → (∀ a, framed (k a)) → framed (m ≫= k).
Proof.
  intros Hm Hk st. unfold mbind, M_bind. specialize (Hm st).
  destruct (m st) as [[a|e|] st1]; simpl in *; try done.
  eapply only_fs_and_logs_trans; [done | apply Hk].
Qed.

Lemma framed_try {A} (m : M A) (h : exn → M A) :
  framed m → (∀ e, framed (h e)) → framed (try_except m h).
Proof.
  intros Hm Hh st. unfold try_except. specialize (Hm st).
  destruct (m st) as [[a|e|] st1]; simpl in *; try done.
  eapply only_fs_and_logs_trans; [done | apply Hh].
Qed.

Lemma framed_gets {A} (f : State → A) : framed (gets f).
Proof. intros st. apply only_fs_and_logs_refl. Qed.

Lemma framed_lift {A} (r : result A) : framed (lift r).
Proof. intros st. apply only_fs_and_logs_refl. Qed.

Lemma framed_mkdir (p : Path) : framed (mkdir p).
Proof.
  intros st. unfold mkdir. destruct (FS.mkdir_parents (fs st) p). by destruct st.
Qed.

Lemma framed_move (src dst : Path) : framed (move src dst).
Proof.
  intros st. unfold move. destruct (FS.shutil_move (fs st) src dst);
    by destruct st.
Qed.

Lemma framed_write (n txt : string) : framed (write n txt).
Proof. intros st. by destruct st. Qed.

Lemma framed_next_free (fuel : nat) (token : nat → string) (base c : Path) (i : nat) :
  framed (next_free fuel token base c i).
Proof.
  revert c i. induction fuel as [|fuel IH]; intros c i st;
    rewrite next_free_unfold;
    destruct (FS.path_exists (fs st) c) as [[]| |];
    try apply only_fs_and_logs_refl.
  destruct (Path.with_name c _); try apply only_fs_and_logs_refl. apply IH.
Qed.

Lemma framed_available_path (token : nat → string) (base : Path) :
  framed (available_path token base).
Proof.
  apply framed_bind; [apply framed_gets|]. intros w. apply framed_next_free.
Qed.

Lemma framed_apply_item (lf : string) (item : planned_move) (t : tally) :
  framed (apply_item lf item t).
Proof.
  destruct item as [[srcf dstf] rname]. unfold apply_item.
  apply framed_bind; [apply framed_mkdir|]. intros _.
  apply framed_bind; [apply framed_gets|]. intros rs.
  apply framed_bind; [apply framed_gets|]. intros rd.
  case_decide.
  - apply framed_bind; [apply framed_write|]. intros _. apply framed_ret.
  - apply framed_bind; [apply framed_available_path|]. intros c.
    apply framed_try.
    + apply framed_bind; [apply framed_move|]. intros _.
      apply framed_bind; [apply framed_write|]. intros _. apply framed_ret.
    + intros e. apply framed_bind; [apply framed_write|]. intros _.
      apply framed_ret.
Qed.

Lemma framed_apply_loop (lf : string) (plan : list planned_move) (t : tally) :
  framed (apply_loop lf plan t).
Proof.
  revert t. induction plan as [|item rest IH]; intros t; simpl.
  - apply framed_ret.
  - apply framed_bind; [apply framed_apply_item | apply IH].
Qed.

(** ** A batch that is cut short *)

Lemma apply_item_abort (lf : string) (item : planned_move) (t : tally)
    (st st1 : State) (e : exn) :
  apply_item lf item t st = (Raise e, st1) →
  abort_cause (fs st) item e (fs st1) ∧ logs st1 = logs st.
Proof.
  destruct item as [[srcf dstf] rname].
  unfold apply_item, mbind, M_bind, mkdir.
  destruct (mkdir_parents_cases (fs st) (Path.parent dstf))
    as [[w1 Hmk]|(e' & w1 & Hmk)]; rewrite Hmk; simpl.
  2: { intros [= <- <-]. split; [|done]. by apply abort_mkdir. }
  unfold resolve, gets. simpl.
  destruct (decide (FS.resolve w1 srcf = FS.resolve w1 dstf)) as [Heq|Hne]; [done|].
  destruct (available_path_spec numbered numbered_inj numbered_space
              dstf (set_fs w1 st))
    as [(k & Hrun & Hfree & Hbelow)|(e' & Hrun & Hraise)]; rewrite Hrun.
  - unfold try_except, move. simpl.
    by destruct (FS.shutil_move w1 srcf _) as [w2|e'|] eqn:Hmv.
  - intros [= <- <-]. split; [|done]. by eapply abort_loop.
Qed.

Lemma apply_loop_abort (lf : string) (plan : list planned_move) (t : tally)
    (st st1 : State) (content : string) (L : gmap string string) (e : exn) :
  logs st = <[lf := content]> L →
  apply_loop lf plan t st = (Raise e, st1) →
  ∃ pre item post outs w1,
    plan = pre ++ item :: post
    ∧ apply_run (fs st) pre outs w1
    ∧ abort_cause w1 item e (fs st1)
    ∧ logs st1 = <[lf := content +:+ log_lines pre outs]> L.
Proof.
  revert t st content. induction plan as [|item rest IH];
    intros t st content Hlogs Hrun; [done|].
  cbn [apply_loop] in Hrun. unfold mbind, M_bind in Hrun.
  destruct (apply_item_spec lf item t st content L Hlogs)
    as [(o & w1 & Hstep & Hitem)|(e' & st' & Hitem)]; rewrite Hitem in Hrun.
  - apply IH with (content := content +:+ log_line item o) in Hrun
      as (pre & it & post & outs & w2 & -> & Hpre & Hcause & Hl); [|done].
    exists (item :: pre), it, post, (o :: outs), w2.
    split_and!; [done|by econstructor|done|].
    simpl. by rewrite <-append_assoc.
  - injection Hrun as <- <-.
    apply apply_item_abort in Hitem as [Hcause Hl].
    exists [], item, rest, [], (fs st).
    split_and!; [done|constructor|done|].
    simpl. by rewrite append_nil_r, Hl.
Qed.

Lemma apply_moves_raise (ts : string) (st st1 : State) (e : exn) :
  apply_moves ts st = (Raise e, st1) →
  only_fs_and_logs st st1
  ∧ ((∃ pre item post outs w1,
        PLANNED st = pre ++ item :: post
        ∧ apply_run (fs st) pre outs w1
        ∧ abort_cause w1 item e (fs st1)
        ∧ logs st1
          = <[log_name ts := log_header ts (selected_folder st)
                             +:+ log_lines pre outs]> (logs st))
     ∨ (selected_folder st = None
        ∧ exn_class_of e = TypeError
        ∧ ∃ outs,
            apply_run (fs st) (PLANNED st) outs (fs st1)
            ∧ logs st1
              = <[log_name ts := log_header ts None
                                 +:+ log_lines (PLANNED st) outs]> (logs st))).
Proof.
  intros Hr.
  unfold apply_moves, mbind, M_bind, gets at 1 in Hr.
  destruct (PLANNED st) as [|item rest] eqn:Hplan; [done|].
  rewrite <-Hplan in *. unfold gets at 1, open_w, write at 1, modify in Hr.
  cbv beta iota in Hr.
  rewrite (logs_append (log_name ts) "" _ (logs st)
             (set_logs (<[log_name ts:=""]> (logs st)) st) eq_refl) in Hr.
  rewrite append_nil_l in Hr. fold (log_header ts (selected_folder st)) in Hr.
  set (st0 := set_logs _ (set_logs _ st)) in Hr.
  assert (only_fs_and_logs st st0) as Hst0 by (by destruct st).
  destruct (apply_loop (log_name ts) (PLANNED st) (mkTally 0 [] [] []) st0)
    as [[t|e'|] st'] eqn:Hloop; cbv beta iota in Hr.
  - pose proof (framed_apply_loop (log_name ts) (PLANNED st)
                  (mkTally 0 [] [] []) st0) as Hfr.
    rewrite Hloop in Hfr. simpl in Hfr.
    destruct (apply_loop_spec (log_name ts) (PLANNED st) (mkTally 0 [] [] []) st0
                (log_header ts (selected_folder st)) (logs st) eq_refl)
      as [(outs & w' & Hrun & Hok)|(e' & st2 & Hbad)];
      [|by rewrite Hbad in Hloop].
    rewrite Hok in Hloop. injection Hloop as <- <-.
    destruct (selected_folder st) as [folder|] eqn:Hsel;
      unfold raise in Hr; cbv beta iota in Hr; [done|].
    injection Hr as <- <-. split.
    + by eapply only_fs_and_logs_trans.
    + right. split_and!; [done..|]. by exists outs.
  - injection Hr as <- <-.
    pose proof (framed_apply_loop (log_name ts) (PLANNED st)
                  (mkTally 0 [] [] []) st0) as Hfr.
    rewrite Hloop in Hfr. simpl in Hfr. split.
    + by eapply only_fs_and_logs_trans.
    + left.
      apply (apply_loop_abort (log_name ts) (PLANNED st) (mkTally 0 [] [] []) st0
               st' (log_header ts (selected_folder st)) (logs st) e'
               eq_refl Hloop).
  - done.
Qed.



(** In [Ex.long_named] the first item collides with a file whose name takes
    254 bytes.  [exists()] raises on the candidate with [" (1)"]: the batch
    ends there with [OSError], [b.pdf] is not looked at, and neither the
    ledger nor the plan is touched.  In [undo_moves] the same loop is inside
    the [try]: the entry is counted as failed and the pass goes on. *)
Example long_name_cuts_batch_short :
  let st1 := (start_arranging Ex.long_named).2 in
  let dstf := Path.of_string ("/s/Organized/Images/" +:+ Ex.long_jpg) in
  let r := apply_moves Ex.clock st1 in
  let u := undo_moves
             (set_LAST_MOVES [("/s/b.pdf", "/s/Organized/Images/" +:+ Ex.long_jpg)]
                Ex.long_named) in
  length (PLANNED st1) = 2
  ∧ r.1 = Raise (FS.ENAMETOOLONG (candidate numbered dstf 1))
  ∧ exn_name (FS.ENAMETOOLONG (candidate numbered dstf 1)) = "OSError"
  ∧ FS.exists_ (fs r.2) (Path.of_string "/s/b.pdf") = true
  ∧ LAST_MOVES r.2 = [] ∧ PLANNED r.2 = PLANNED st1
  ∧ u.1 = Ok ()
  ∧ preview u.2 !! 1 = Some "Restored: 0   Failed: 1"
  ∧ preview u.2 !! 3 = Some "  - b.pdf (OSError)".
Proof. vm_compute. by repeat split. Qed.

(** ** A batch that runs to its end *)


Lemma apply_moves_done (ts : string) (st st' : State) :
  PLANNED st ≠ [] →
  apply_moves ts st = (Ok (), st') →
  ∃ outs folder,
    selected_folder st = Some folder
    ∧ apply_run (fs st) (PLANNED st) outs (fs st')
    ∧ st'
      = set_apply_btn false
          (set_PLANNED []
             (set_preview
                ["🎉 All done!";
                 "🧚‍♀️: Open '"
                   +:+ Path.to_string (_resolve_target (CONFIG st)
                                         (Path.of_string folder))
                   +:+ "' (click to open)";
                 "📝 Log: 'logs/" +:+ log_name ts +:+ "' (click to open)";
                 "Moved: " +:+ pretty (count_moved outs)
                   +:+ "   Skipped: " +:+ pretty (count_skipped outs)
                   +:+ "   Failed: " +:+ pretty (count_failed outs);
                 "🧚‍♀️:If you don't like these changes, click the 'Undo' button."]
                (set_undo_btn (bool_decide (ledger_of (PLANNED st) outs ≠ []))
                   (set_LAST_MOVES (ledger_of (PLANNED st) outs)
                      (set_logs
                         (<[log_name ts := log_header ts (Some folder)
                                           +:+ log_lines (PLANNED st) outs
                                           +:+ log_footer outs]> (logs st))
                         (set_fs (fs st') st)))))).
Proof.
  intros Hne Hr.
  unfold apply_moves, mbind, M_bind, gets at 1 in Hr.
  destruct (PLANNED st) as [|item rest] eqn:Hplan; [done|].
  rewrite <-Hplan in *. unfold gets at 1, open_w, write at 1, modify in Hr.
  cbv beta iota in Hr.
  rewrite (logs_append (log_name ts) "" _ (logs st)
             (set_logs (<[log_name ts:=""]> (logs st)) st) eq_refl) in Hr.
  rewrite append_nil_l in Hr. fold (log_header ts (selected_folder st)) in Hr.
  set (st0 := set_logs _ (set_logs _ st)) in Hr.
  destruct (apply_loop_spec (log_name ts) (PLANNED st) (mkTally 0 [] [] []) st0
              (log_header ts (selected_folder st)) (logs st) eq_refl)
    as [(outs & w' & Hrun & Hloop)|(e & st1 & Hloop)];
    rewrite Hloop in Hr; cbv beta iota in Hr; [|done].
  destruct (selected_folder st) as [folder|] eqn:Hsel;
    unfold raise in Hr; cbv beta iota in Hr; [|done].
  exists outs, folder. split; [done|].
  pose proof (apply_run_length _ _ _ _ Hrun) as Hlen.
  destruct (tally_run_spec (PLANNED st) outs (mkTally 0 [] [] []) Hlen)
    as (Hm & Hs & Hf & Hl). simpl in Hm, Hs, Hf, Hl.
  unfold mret, M_ret, gets, write, modify in Hr. cbv beta iota in Hr.
  injection Hr as <-.
  cbn [logs fs LAST_MOVES PLANNED undo_btn apply_btn set_logs set_fs
       set_LAST_MOVES set_PLANNED set_undo_btn set_apply_btn set_preview CONFIG].
  split; [done|].
  rewrite !lookup_insert_eq. cbn [default]. rewrite !insert_insert_eq.
  unfold counts, id. rewrite Hm, Hs, Hf, Hl.
  unfold log_footer. by rewrite !append_assoc.
Qed.



(** ** Choosing a folder *)

Lemma choose_folder_spec (folder : string) (st : State) :
  choose_folder folder st
  = if decide (folder = "") then
      (Ok "No folder selected.",
       set_preview
         ["🧚‍♀️:Click " +:+ dquote +:+ "Choose Folder" +:+ dquote
            +:+ " and select the folder you want to organize."] st)
    else
      (Ok ("Selected: " +:+ folder),
       set_apply_btn false
         (set_preview
            ["🧚‍♀️:Click " +:+ dquote +:+ "Preview Moves" +:+ dquote
               +:+ " to see how your files will be organized."]
            (set_selected_folder (Some folder) st))).
Proof.
  unfold choose_folder. simpl. destruct (decide (folder = "")) as [->|Hf].
  - done.
  - by rewrite bool_decide_true.
Qed.

(** ** The handlers behind their buttons *)

Lemma startup_invariant (cfg : Config) (w : FS) (L : gmap string string) :
  ui_invariant cfg (startup cfg w L).
Proof. by split. Qed.

Lemma choose_folder_invariant (cfg : Config) (folder : string) (st : State) :
  ui_invariant cfg st → ui_invariant cfg (choose_folder folder st).2.
Proof.
  intros [Hc Hf Hu Ha]. rewrite choose_folder_spec.
  destruct (decide (folder = "")) as [->|Hne]; split; simpl; try done.
  congruence.
Qed.

Lemma start_arranging_invariant (cfg : Config) (st : State) :
  ui_invariant cfg st → ui_invariant cfg (start_arranging st).2.
Proof.
  intros Hinv. rewrite start_arranging_spec. simpl.
  destruct (truthy (selected_folder st)) eqn:Ht; [|done].
  destruct (selected_folder st) as [folder|] eqn:Hsel; [|done].
  destruct Hinv as [Hc Hf Hu Ha]. simpl.
  destruct (planned_of (CONFIG st) (fs st) (Path.of_string folder))
    as [|item rest] eqn:Hplan; split; simpl; try done; try congruence.
  intros _. split; [done|]. exists folder, (fs st). by rewrite <-Hc.
Qed.

Lemma apply_moves_invariant (cfg : Config) (ts : string) (st : State) :
  ui_invariant cfg st → ui_invariant cfg (apply_moves ts st).2.
Proof.
  intros Hinv. destruct (decide (PLANNED st = [])) as [Hp|Hne].
  - unfold apply_moves, mbind, M_bind, gets. by rewrite Hp.
  - destruct (apply_moves_spec ts st Hne)
      as [(outs & st' & Hr & _)|(e & st1 & Hr)]; rewrite Hr; simpl.
    + destruct (apply_moves_done ts st st' Hne Hr)
        as (outs' & folder & Hsel & _ & ->).
      destruct Hinv as [Hc Hf Hu Ha]. split; simpl; try done.
    + destruct (apply_moves_raise ts st st1 e Hr) as [Hfr _].
      destruct (only_fs_and_logs_fields _ _ Hfr)
        as (Hc' & Hs' & Hp' & Hl' & _ & Ha' & Hu').
      destruct Hinv as [Hc Hf Hu Ha]. split.
      * by rewrite Hc'.
      * by rewrite Hs'.
      * by rewrite Hu', Hl'.
      * rewrite Ha', Hp', Hs'. exact Ha.
Qed.

Lemma undo_moves_invariant (cfg : Config) (st : State) :
  ui_invariant cfg st → ui_invariant cfg (undo_moves st).2.
Proof.
  intros [Hc Hf Hu Ha]. destruct (decide (LAST_MOVES st = [])) as [Hl|Hne].
  - unfold undo_moves, mbind, M_bind, gets, modify. rewrite Hl. by split.
  - destruct (undo_moves_spec st Hne) as (outs & w' & _ & ->). by split.
Qed.

Lemma fire_invariant (cfg : Config) (ev : event) (st : State) :
  ui_invariant cfg st → ui_invariant cfg (fire ev st).
Proof.
  intros Hinv. destruct ev as [folder| |ts| |w]; simpl.
  - by apply choose_folder_invariant.
  - by apply start_arranging_invariant.
  - destruct (apply_btn st); [by apply apply_moves_invariant|done].
  - destruct (undo_btn st); [by apply undo_moves_invariant|done].
  - by destruct Hinv.
Qed.

Lemma reachable_invariant (cfg : Config) (st : State) :
  reachable cfg st → ui_invariant cfg st.
Proof.
  induction 1 as [w L|st ev _ IH].
  - apply startup_invariant.
  - by apply fire_invariant.
Qed.

(** X3.  In every state the application can be in (from start-up, after any
    clicks on the four buttons and any changes made to the file system from
    outside) the configuration is the one loaded, [selected_folder] is
    [None] or a non-empty string, Undo is enabled exactly when the ledger
    holds a record, and an enabled Apply means that [PLANNED] is not empty
    and is the plan [start_arranging] computed for the folder now selected,
    on the file system as it was at that preview. *)
Theorem buttons_track_plan_and_ledger (cfg : Config) (st : State) :
  reachable cfg st →
  CONFIG st = cfg
  ∧ selected_folder st ≠ Some ""
  ∧ (undo_btn st = true ↔ LAST_MOVES st ≠ [])
  ∧ (apply_btn st = true →
       PLANNED st ≠ []
       ∧ ∃ folder w,
           selected_folder st = Some folder
           ∧ PLANNED st = planned_of cfg w (Path.of_string folder)).
Proof.
  intros [Hc Hf Hu Ha]%reachable_invariant. split_and!; try done.
  rewrite Hu. apply bool_decide_eq_true.
Qed.

Lemma buttons_track_plan_and_ledger_witness :
  let cfg := CONFIG Ex.fresh in
  let st := fire PreviewMoves
              (fire (ChooseFolder "/s") (startup cfg (fs Ex.fresh) ∅)) in
  CONFIG st = cfg
  ∧ selected_folder st ≠ Some ""
  ∧ (undo_btn st = true ↔ LAST_MOVES st ≠ [])
  ∧ (apply_btn st = true →
       PLANNED st ≠ []
       ∧ ∃ folder w,
           selected_folder st = Some folder
           ∧ PLANNED st = planned_of cfg w (Path.of_string folder)).
Proof.
  intros cfg st. apply (buttons_track_plan_and_ledger cfg st).
  unfold st. do 2 apply reach_fire. apply reach_startup.
Defined.



(** ** The shape of a plan *)

Lemma match_rules_entry (rs : list Rule) (f tgt : Path) :
  match_rules rs f tgt [] = []
  ∨ ∃ r, r ∈ rs ∧ passes r f = true ∧ match_rules rs f tgt [] = [entry_of r f tgt].
Proof.
  rewrite match_rules_find. simpl.
  destruct (List.find _ rs) as [r|] eqn:Hfind; [right|by left].
  apply find_some in Hfind as [Hin%list_elem_of_In Hp]. by exists r.
Qed.




Lemma split_on_no_sep_id (sep : ascii) (s : string) :
  string_mem sep s = false → split_on sep s = [s].
Proof.
  induction s as [|c s IH]; simpl; [done|].
  intros [Hc Hs]%orb_false_elim. apply bool_decide_eq_false in Hc.
  rewrite decide_False by done. by rewrite (IH Hs).
Qed.

Lemma count_leading_no_sep (sep : ascii) (s : string) :
  string_mem sep s = false → count_leading sep s = 0.
Proof.
  destruct s as [|c s]; simpl; [done|].
  intros [Hc _]%orb_false_elim. apply bool_decide_eq_false in Hc.
  by rewrite decide_False.
Qed.

Lemma path_eta (p : Path) : Path.mk (Path.root p) (Path.parts p) = p.
Proof. by destruct p. Qed.

Lemma of_string_valid_name (n : string) :
  Path.valid_name n = true → Path.of_string n = Path.mk "" [n].
Proof.
  unfold Path.valid_name.
  intros [[Hne%bool_decide_eq_true Hs%negb_true_iff]%andb_true_iff
            Hdot%bool_decide_eq_true]%andb_true_iff.
  unfold Path.of_string. rewrite count_leading_no_sep, split_on_no_sep_id by done.
  rewrite filter_cons, decide_True by done. by rewrite filter_nil.
Qed.

(** X6.  The planner never renames: for a source whose name is a single path
    component, the planned destination has the name of the source and lies
    directly in [tgt / move_to], where [move_to] is the non-empty action of
    a rule of the configuration, the rule whose name the entry carries
    (["rule"] when it has none). *)
Theorem planned_destination_keeps_name (src : Path) (st st' : State)
    (planned : list planned_move) (e : planned_move) :
  plan src st = (Ok planned, st') →
  e ∈ planned →
  Path.valid_name (Path.name e.1.1) = true →
  Path.name e.1.2 = Path.name e.1.1
  ∧ ∃ r move_to,
      r ∈ rules (CONFIG st)
      ∧ action_move_to r = Some move_to ∧ move_to ≠ ""
      ∧ Path.parent e.1.2
        = _resolve_target (CONFIG st) src // Path.of_string move_to
      ∧ e.2 = default "rule" (name r).
Proof.
  rewrite plan_spec. intros [= <- <-] He Hname.
  unfold planned_of in He.
  apply list_elem_of_In, in_flat_map in He as (f & _ & He%list_elem_of_In).
  destruct (match_rules_entry (rules (CONFIG st)) f
              (_resolve_target (CONFIG st) src)) as [Hm|(r & Hr & Hp & Hm)];
    rewrite Hm in He; [by apply elem_of_nil in He|].
  apply list_elem_of_singleton in He as ->. simpl in *.
  rewrite (of_string_valid_name _ Hname).
  set (d := _ // Path.of_string _).
  assert (d // Path.mk "" [Path.name f]
          = Path.mk (Path.root d) (Path.parts d ++ [Path.name f])) as -> by done.
  split.
  - unfold Path.name at 1. simpl. apply last_last.
  - apply passes_iff in Hp as [_ Ht].
    destruct (action_move_to r) as [move_to|] eqn:Hact; [|done].
    exists r, move_to. split_and!; try done.
    + simpl in Ht. by apply bool_decide_eq_true in Ht.
    + unfold Path.parent. simpl. rewrite removelast_last. apply path_eta.
Qed.

Lemma planned_destination_keeps_name_witness :
  let e := (Path.of_string "/s/a.jpg",
            Path.of_string "/s/Organized/Images/a.jpg", "img") in
  Path.name e.1.2 = Path.name e.1.1
  ∧ ∃ r move_to,
      r ∈ rules (CONFIG Ex.fresh)
      ∧ action_move_to r = Some move_to ∧ move_to ≠ ""
      ∧ Path.parent e.1.2
        = _resolve_target (CONFIG Ex.fresh) (Path.of_string "/s")
            // Path.of_string move_to
      ∧ e.2 = default "rule" (name r).
Proof.
  intros e.
  apply (planned_destination_keeps_name (Path.of_string "/s") Ex.fresh Ex.fresh
           (PLANNED Ex.previewed) e).
  - vm_compute. reflexivity.
  - vm_compute. apply list_elem_of_here.
  - vm_compute. reflexivity.
Defined.





(** ** What undo reports and what it leaves alone *)

Lemma undo_run_length (w w' : FS) (entries : list (string * string))
    (outs : list restore_outcome) :
  undo_run w entries outs w' → length outs = length entries.
Proof. induction 1; simpl; congruence. Qed.

Lemma restored_and_failures (entries : list (string * string))
    (outs : list restore_outcome) :
  length outs = length entries →
  restored_count outs + length (failures entries outs) = length entries.
Proof.
  revert outs. induction entries as [|[fp op] entries IH]; intros [|o outs] Hlen;
    simpl in Hlen; try done.
  injection Hlen as Hlen. specialize (IH outs Hlen).
  destruct o; simpl; lia.
Qed.

Lemma undo_report_length (restored : nat) (failed : list (string * string)) :
  length (undo_report restored failed)
  = match failed with
    | [] => 2
    | _ => 3 + Nat.min (length failed) 10
           + (if bool_decide (10 < length failed) then 1 else 0)
    end.
Proof.
  unfold undo_report. destruct failed as [|f failed]; [done|].
  rewrite !length_app, length_fmap, length_take. simpl length.
  case_bool_decide; cbn [length]; lia.
Qed.

(** X8.  An undo of a non-empty ledger accounts for every record: the
    numbers of records restored and not restored add up to the length of the
    ledger and are the two numbers of the second preview line.  The preview
    never has more than fourteen lines, however many records fail.  Undo
    writes no log and touches neither the plan, the selection nor the Apply
    button; it ends with the ledger empty and itself disabled. *)
Theorem undo_accounts_for_every_record (st : State) :
  LAST_MOVES st ≠ [] →
  ∃ outs st',
    undo_moves st = (Ok (), st')
    ∧ undo_run (fs st) (rev (LAST_MOVES st)) outs (fs st')
    ∧ restored_count outs + length (failures (rev (LAST_MOVES st)) outs)
      = length (LAST_MOVES st)
    ∧ preview st' !! 1
      = Some ("Restored: " +:+ pretty (restored_count outs) +:+ "   Failed: "
              +:+ pretty (length (failures (rev (LAST_MOVES st)) outs)))
    ∧ 2 ≤ length (preview st') ≤ 14
    ∧ st' = set_undo_btn false
              (set_LAST_MOVES [] (set_preview (preview st') (set_fs (fs st') st))).
Proof.
  intros Hne. destruct (undo_moves_spec st Hne) as (outs & w' & Hrun & Hr).
  exists outs. eexists. split; [exact Hr|].
  cbn [fs preview set_undo_btn set_LAST_MOVES set_preview set_fs].
  pose proof (undo_run_length _ _ _ _ Hrun) as Hlen.
  pose proof (restored_and_failures _ _ Hlen) as Hsum.
  rewrite length_rev in Hsum.
  assert (∀ r f, 2 ≤ length (undo_report r f) ≤ 14) as Hbound.
  { intros r f. rewrite undo_report_length. destruct f as [|x f]; [lia|].
    case_bool_decide; lia. }
  split_and!; try done; try apply Hbound.
Qed.

Lemma undo_accounts_for_every_record_witness :
  ∃ outs st',
    undo_moves Ex.stranded = (Ok (), st')
    ∧ undo_run (fs Ex.stranded) (rev (LAST_MOVES Ex.stranded)) outs (fs st')
    ∧ restored_count outs + length (failures (rev (LAST_MOVES Ex.stranded)) outs)
      = length (LAST_MOVES Ex.stranded)
    ∧ preview st' !! 1
      = Some ("Restored: " +:+ pretty (restored_count outs) +:+ "   Failed: "
              +:+ pretty (length (failures (rev (LAST_MOVES Ex.stranded)) outs)))
    ∧ 2 ≤ length (preview st') ≤ 14
    ∧ st' = set_undo_btn false
              (set_LAST_MOVES [] (set_preview (preview st')
                                    (set_fs (fs st') Ex.stranded))).
Proof. apply (undo_accounts_for_every_record Ex.stranded). vm_compute. discriminate. Defined.

(** ** Paths written to the ledger and read back *)

Lemma split_on_app (sep : ascii) (x rest : string) :
  string_mem sep x = false →
  split_on sep (x +:+ String sep rest) = x :: split_on sep rest.
Proof.
  induction x as [|c x IH]; intros Hx.
  - rewrite append_nil_l. simpl. by rewrite decide_True.
  - simpl in Hx. apply orb_false_elim in Hx as [Hc%bool_decide_eq_false Hx].
    rewrite append_cons. simpl. rewrite decide_False by done.
    by rewrite (IH Hx).
Qed.

Lemma split_on_join (l : list string) :
  l ≠ [] → Forall (λ c, string_mem "/" c = false) l →
  split_on "/" (join "/" l) = l.
Proof.
  induction l as [|x [|y l] IH]; intros Hne Hall; [done| |].
  - simpl. apply split_on_no_sep_id. by apply Forall_inv in Hall.
  - apply Forall_cons in Hall as [Hx Hall].
    change (join "/" (x :: y :: l)) with (x +:+ "/" +:+ join "/" (y :: l)).
    change ("/" +:+ join "/" (y :: l)) with (String "/" (join "/" (y :: l))).
    rewrite split_on_app by done. by rewrite IH.
Qed.

Lemma join_head (x : string) (l : list string) :
  x ≠ "" → string_mem "/" x = false →
  ∃ c s, join "/" (x :: l) = String c s ∧ c ≠ "/"%char.
Proof.
  intros Hx Hs. destruct x as [|c x]; [done|].
  simpl in Hs. apply orb_false_elim in Hs as [Hc%bool_decide_eq_false _].
  destruct l as [|y l].
  - by exists c, x.
  - exists c, (x +:+ "/" +:+ join "/" (y :: l)). split; [|done].
    change (join "/" (String c x :: y :: l))
      with (String c x +:+ "/" +:+ join "/" (y :: l)).
    by rewrite append_cons.
Qed.

Lemma filter_names (l : list string) :
  Forall (λ c, c ≠ "" ∧ c ≠ "." ∧ string_mem "/" c = false) l →
  filter (λ c, c ≠ "" ∧ c ≠ ".") l = l.
Proof.
  induction 1 as [|c l (? & ? & ?) _ IH]; [done|].
  rewrite filter_cons, decide_True by done. by rewrite IH.
Qed.

Lemma filter_empty_name (l : list string) :
  filter (λ c, c ≠ "" ∧ c ≠ ".") ("" :: l) = filter (λ c, c ≠ "" ∧ c ≠ ".") l.
Proof. rewrite filter_cons, decide_False; [done|]. by intros [? _]. Qed.

Lemma of_to_string (p : Path) :
  path_wf p → Path.of_string (Path.to_string p) = p.
Proof.
  destruct p as [r ps]. intros [Hr Hps]. simpl in Hr, Hps.
  destruct ps as [|x ps].
  - by destruct Hr as [->|[->| ->]].
  - pose proof Hps as Hps'. apply Forall_cons in Hps' as [(Hx & _ & Hs) _].
    destruct (join_head x ps Hx Hs) as (c & s & Hj & Hc).
    assert (split_on "/" (join "/" (x :: ps)) = x :: ps) as Hsplit.
    { apply split_on_join; [done|]. eapply Forall_impl; [exact Hps|].
      by intros ? (_ & _ & ?). }
    pose proof (filter_names _ Hps) as Hfil.
    unfold Path.of_string, Path.to_string. cbn [Path.root Path.parts].
    destruct Hr as [->|[->| ->]].
    + rewrite append_nil_l.
      rewrite Hsplit, Hfil. rewrite Hj. simpl. by rewrite decide_False.
    + change ("/" +:+ join "/" (x :: ps)) with (String "/" (join "/" (x :: ps))).
      cbn [split_on count_leading]. rewrite !decide_True by done.
      rewrite Hsplit, filter_empty_name, Hfil. rewrite Hj. simpl. by rewrite decide_False.
    + change ("//" +:+ join "/" (x :: ps))
        with (String "/" (String "/" (join "/" (x :: ps)))).
      cbn [split_on count_leading]. rewrite !decide_True by done.
      rewrite Hsplit, !filter_empty_name, Hfil. rewrite Hj. simpl. by rewrite decide_False.
Qed.











(** ** Trees *)

Lemma entry_set_entry (n m : string) (x : node) (es : list (string * node)) :
  entry m (set_entry n x es) = if decide (m = n) then Some x else entry m es.
Proof.
  induction es as [|[k c] es IH]; simpl.
  - repeat case_decide; congruence.
  - destruct (decide (k = n)) as [->|Hk]; simpl.
    + repeat case_decide; congruence.
    + rewrite IH. repeat case_decide; congruence.
Qed.

Lemma entry_del_entry (n m : string) (es : list (string * node)) :
  entry m (del_entry n es) = if decide (m = n) then None else entry m es.
Proof.
  unfold del_entry. induction es as [|[k c] es IH]; simpl.
  - by case_decide.
  - rewrite filter_cons. simpl. destruct (decide (k ≠ n)) as [Hk|Hk]; simpl.
    + rewrite IH. repeat case_decide; congruence.
    + apply dec_stable in Hk as ->. rewrite IH.
      repeat (case_decide; subst; try done).
Qed.

Lemma get_node_app (t : node) (l m : list string) :
  get_node t (l ++ m) = get_node t l ≫= λ c, get_node c m.
Proof.
  revert t. induction l as [|n l IH]; intros t; [done|].
  simpl. destruct t as [d|es]; [done|].
  destruct (entry n es) as [c|]; simpl; [apply IH|done].
Qed.

Lemma same_kind_refl (x : option node) : same_kind x x.
Proof. by destruct x as [[d|es]|]. Qed.

Lemma same_kind_trans (x y z : option node) :
  same_kind x y → same_kind y z → same_kind x z.
Proof.
  destruct x as [[?|?]|], y as [[?|?]|], z as [[?|?]|]; simpl;
    intros; try done; congruence.
Qed.

Lemma same_kind_dir (t t' : node) (l : list string) :
  same_kind (get_node t' l) (get_node t l) → dir_at t' l = dir_at t l.
Proof.
  unfold dir_at. by destruct (get_node t' l) as [[?|?]|], (get_node t l) as [[?|?]|].
Qed.

Lemma set_entry_same (n : string) (c : node) (es : list (string * node)) :
  entry n es = Some c → set_entry n c es = es.
Proof.
  induction es as [|[k x] es IH]; simpl; [done|].
  case_decide as Hk; [by intros [= ->]; subst|]. intros H. by rewrite IH.
Qed.

Lemma put_deep (es : list (string * node)) (n n' : string) (l : list string)
    (new : node) :
  put (Dir es) (n :: n' :: l) new
  = match entry n es with
    | Some c => Dir (set_entry n (put c (n' :: l) new) es)
    | None => Dir es
    end.
Proof. reflexivity. Qed.

Lemma del_deep (es : list (string * node)) (n n' : string) (l : list string) :
  del (Dir es) (n :: n' :: l)
  = match entry n es with
    | Some c => Dir (set_entry n (del c (n' :: l)) es)
    | None => Dir es
    end.
Proof. reflexivity. Qed.

Lemma get_node_cons (es : list (string * node)) (n : string) (l : list string) :
  get_node (Dir es) (n :: l) = entry n es ≫= λ c, get_node c l.
Proof. reflexivity. Qed.

(** [put] either leaves the tree alone or binds the location. *)
Lemma put_cases (t : node) (l : list string) (new : node) :
  put t l new = t ∨ get_node (put t l new) l = Some new.
Proof.
  revert t. induction l as [|n l IH]; intros t; [by right|].
  destruct t as [d|es]; [by left|].
  destruct l as [|n' l].
  - right. simpl. by rewrite entry_set_entry, decide_True.
  - rewrite put_deep. destruct (entry n es) as [c|] eqn:Hc; [|by left].
    destruct (IH c) as [Heq|Hget].
    + left. rewrite Heq. by rewrite set_entry_same.
    + right. rewrite get_node_cons, entry_set_entry, decide_True by done.
      exact Hget.
Qed.

(** A location other than [l] and not below it is not affected by [put]
    or [del] at [l], except that a directory on the way to [l] has its
    entries changed. *)
Lemma get_node_put_other (t : node) (l l' : list string) (new : node) :
  ¬ l `prefix_of` l' → same_kind (get_node (put t l new) l') (get_node t l').
Proof.
  revert t l'. induction l as [|n l IH]; intros t l' Hpre.
  { destruct Hpre. apply prefix_nil. }
  destruct t as [d|es]; [apply same_kind_refl|].
  destruct l' as [|m l'].
  { destruct l as [|n' l]; [done|]. rewrite put_deep.
    by destruct (entry n es). }
  destruct l as [|n' l].
  - simpl. rewrite entry_set_entry.
    destruct (decide (m = n)) as [->|Hm]; [|apply same_kind_refl].
    destruct Hpre. by apply prefix_cons, prefix_nil.
  - rewrite put_deep. destruct (entry n es) as [c|] eqn:Hc;
      [|apply same_kind_refl].
    rewrite !get_node_cons, entry_set_entry.
    destruct (decide (m = n)) as [->|Hm]; [|apply same_kind_refl].
    rewrite Hc. simpl. apply IH. intros Hp. apply Hpre. by apply prefix_cons.
Qed.

Lemma get_node_del_other (t : node) (l l' : list string) :
  ¬ l `prefix_of` l' → same_kind (get_node (del t l) l') (get_node t l').
Proof.
  revert t l'. induction l as [|n l IH]; intros t l' Hpre.
  { destruct Hpre. apply prefix_nil. }
  destruct t as [d|es]; [apply same_kind_refl|].
  destruct l' as [|m l'].
  { destruct l as [|n' l]; [done|]. rewrite del_deep.
    by destruct (entry n es). }
  destruct l as [|n' l].
  - simpl. rewrite entry_del_entry.
    destruct (decide (m = n)) as [->|Hm]; [|apply same_kind_refl].
    destruct Hpre. by apply prefix_cons, prefix_nil.
  - rewrite del_deep. destruct (entry n es) as [c|] eqn:Hc;
      [|apply same_kind_refl].
    rewrite !get_node_cons, entry_set_entry.
    destruct (decide (m = n)) as [->|Hm]; [|apply same_kind_refl].
    rewrite Hc. simpl. apply IH. intros Hp. apply Hpre. by apply prefix_cons.
Qed.

Lemma get_node_del_eq (t : node) (l : list string) :
  l ≠ [] → get_node (del t l) l = None.
Proof.
  revert t. induction l as [|n l IH]; intros t Hl; [done|].
  destruct t as [d|es]; [done|].
  destruct l as [|n' l].
  - simpl. by rewrite entry_del_entry, decide_True.
  - rewrite del_deep. destruct (entry n es) as [c|] eqn:Hc.
    + rewrite get_node_cons, entry_set_entry, decide_True by done.
      simpl. by apply IH.
    + rewrite get_node_cons, Hc. done.
Qed.

Lemma get_node_put_eq (t : node) (l : list string) (new : node) :
  l ≠ [] → dir_at t (removelast l) = true →
  get_node (put t l new) l = Some new.
Proof.
  revert t. induction l as [|n l IH]; intros t Hl Hd; [done|].
  destruct l as [|n' l].
  - unfold dir_at in Hd. simpl in Hd. destruct t as [d|es]; [done|].
    simpl. by rewrite entry_set_entry, decide_True.
  - unfold dir_at in Hd.
    change (removelast (n :: n' :: l)) with (n :: removelast (n' :: l)) in Hd.
    destruct t as [d|es]; [done|]. rewrite get_node_cons in Hd.
    rewrite put_deep. destruct (entry n es) as [c|] eqn:Hc; [|done].
    simpl in Hd. rewrite get_node_cons, entry_set_entry, decide_True by done.
    simpl. by apply IH.
Qed.

Lemma dir_at_prefix (t : node) (l m : list string) :
  dir_at t (l ++ m) = true → dir_at t l = true.
Proof.
  unfold dir_at. rewrite get_node_app.
  destruct (get_node t l) as [[d|es]|]; simpl; try done.
  by destruct m.
Qed.

Lemma dir_at_removelast (t : node) (l : list string) :
  dir_at t l = true → dir_at t (removelast l) = true.
Proof.
  destruct l as [|x l] using rev_ind; [done|]. rewrite removelast_last.
  apply dir_at_prefix.
Qed.

Lemma dir_at_get (t : node) (l : list string) :
  dir_at t l = true → ∃ es, get_node t l = Some (Dir es).
Proof.
  unfold dir_at. destruct (get_node t l) as [[d|es]|]; try done. by exists es.
Qed.

(** ** Walking the tree *)

Lemma walk_dir (w : FS) (p : Path) (cur comps d : list string) :
  dir_at (FS.tree w) cur = true →
  FS.walk w p cur comps = Ok d → dir_at (FS.tree w) d = true.
Proof.
  revert cur. induction comps as [|c comps IH]; intros cur Hcur; simpl.
  - by intros [= <-].
  - case_decide; [by apply IH, dir_at_removelast|].
    destruct (FS.long_name c); [done|].
    destruct (get_node (FS.tree w) (cur ++ [c])) as [[|es]|] eqn:Hc; try done.
    apply IH. unfold dir_at. by rewrite Hc.
Qed.

Lemma walk_stable (w w' : FS) (p : Path) (cur comps d : list string) :
  (∀ l, dir_at (FS.tree w') l = dir_at (FS.tree w) l) →
  FS.walk w p cur comps = Ok d → FS.walk w' p cur comps = Ok d.
Proof.
  intros Hsame. revert cur. induction comps as [|c comps IH]; intros cur; simpl;
    [done|].
  case_decide; [apply IH|]. destruct (FS.long_name c); [done|].
  destruct (get_node (FS.tree w) (cur ++ [c])) as [[|es]|] eqn:Hc; try done.
  assert (dir_at (FS.tree w') (cur ++ [c]) = true) as Hd.
  { rewrite Hsame. unfold dir_at. by rewrite Hc. }
  apply dir_at_get in Hd as [es' ->]. apply IH.
Qed.

Lemma walk_snoc (w : FS) (p : Path) (cur l : list string) (x : string) :
  FS.walk w p cur (l ++ [x])
  = d ← FS.walk w p cur l; FS.walk w p d [x].
Proof.
  revert cur. induction l as [|c l IH]; intros cur.
  - simpl. case_decide; [done|]. destruct (FS.long_name x); [done|].
    by destruct (get_node (FS.tree w) (cur ++ [x])) as [[|es]|].
  - cbn [app FS.walk]. case_decide; [apply IH|].
    destruct (FS.long_name c); [done|].
    by destruct (get_node (FS.tree w) (cur ++ [c])) as [[|es]|].
Qed.

(** What [locate] has checked when it returns. *)
Lemma locate_ok (w : FS) (p : Path) (l : list string) :
  FS.locate w p = Ok l ↔
  FS.long_path p = false
  ∧ ((Path.parts p = [] ∧ l = FS.start w p)
     ∨ (Path.parts p ≠ []
        ∧ ∃ d, FS.walk w p (FS.start w p) (removelast (Path.parts p)) = Ok d
               ∧ ((Path.name p = ".." ∧ l = removelast d)
                  ∨ (Path.name p ≠ ".." ∧ FS.long_name (Path.name p) = false
                     ∧ l = d ++ [Path.name p])))).
Proof.
  unfold FS.locate. destruct (FS.long_path p); [by split; [|intros [? _]]|].
  destruct (Path.parts p) as [|c ps] eqn:Hp.
  { split.
    - intros [= <-]. split; [done|]. by left.
    - by intros [_ [[_ ->]|[? _]]]. }
  destruct (FS.walk _ _ _ _) as [d|e|] eqn:Hw; simpl.
  - split.
    + intros Hl. split; [done|]. right. split; [done|]. exists d.
      split; [done|]. destruct (decide (Path.name p = "..")) as [Hn|Hn].
      * left. split; [done|]. by injection Hl as <-.
      * right. destruct (FS.long_name (Path.name p)); [done|].
        by injection Hl as <-.
    + intros [_ [[? _]|[_ (d' & [= <-] & [[Hn ->]|(Hn & Hlong & ->)])]]];
        [done|by rewrite decide_True|].
      by rewrite decide_False, Hlong.
  - split; [done|]. by intros [_ [[? _]|[_ (d' & ? & _)]]].
  - split; [done|]. by intros [_ [[? _]|[_ (d' & ? & _)]]].
Qed.

Lemma locate_stable (w w' : FS) (p : Path) (l : list string) :
  (∀ l, dir_at (FS.tree w') l = dir_at (FS.tree w) l) →
  FS.cwd w' = FS.cwd w →
  FS.locate w p = Ok l → FS.locate w' p = Ok l.
Proof.
  intros Hsame Hcwd. rewrite !locate_ok. unfold FS.start. rewrite Hcwd.
  intros [Hlong [?|(Hp & d & Hw & Hd)]]; (split; [done|]); [by left|right].
  split; [done|]. exists d. split; [|done].
  by apply (walk_stable w w' p _ _ d Hsame).
Qed.

Lemma start_dir (w : FS) (p : Path) :
  fs_wf w = true → dir_at (FS.tree w) (FS.start w p) = true.
Proof.
  unfold fs_wf, FS.start. intros Hwf.
  destruct (Path.is_absolute p); [|done].
  by apply (dir_at_prefix _ [] (FS.cwd w)).
Qed.

(** Where the last component of a located path is looked up is a
    directory. *)
Lemma locate_parent_dir (w : FS) (p : Path) (l : list string) :
  fs_wf w = true → FS.locate w p = Ok l → Path.name p ≠ ".." →
  dir_at (FS.tree w) (removelast l) = true.
Proof.
  intros Hwf [_ [[_ ->]|(_ & d & Hw & [[? _]|(_ & _ & ->)])]]%locate_ok Hn;
    [by apply dir_at_removelast, start_dir|done|].
  rewrite removelast_last. eapply walk_dir; [|exact Hw]. by apply start_dir.
Qed.

Lemma length_join_removelast (l : list string) :
  String.length (join "/" (removelast l)) ≤ String.length (join "/" l).
Proof.
  induction l as [|x [|y l] IH]; [done|simpl; lia|].
  change (removelast (x :: y :: l)) with (x :: removelast (y :: l)).
  change (join "/" (x :: y :: l)) with (x +:+ "/" +:+ join "/" (y :: l)).
  destruct (removelast (y :: l)) as [|z l'] eqn:Hr.
  - simpl. rewrite !length_append. lia.
  - change (join "/" (x :: z :: l')) with (x +:+ "/" +:+ join "/" (z :: l')).
    rewrite !length_append. lia.
Qed.

Lemma long_path_parent (p : Path) :
  FS.long_path p = false → FS.long_path (Path.parent p) = false.
Proof.
  unfold FS.long_path. rewrite !bool_decide_eq_false. intros Hp.
  assert (String.length (Path.to_string (Path.parent p))
          ≤ Nat.max 1 (String.length (Path.to_string p))) as Hle.
  { unfold Path.to_string, Path.parent. cbn [Path.root Path.parts].
    pose proof (length_join_removelast (Path.parts p)) as Hj.
    destruct (Path.root p) as [|a r].
    - destruct (removelast (Path.parts p)) as [|z l'] eqn:Hr; [simpl; lia|].
      rewrite <-Hr. destruct (Path.parts p); [done|].
      rewrite !append_nil_l, Hr. lia.
    - rewrite !length_append. lia. }
  unfold FS.PATH_MAX in *. lia.
Qed.

Lemma is_dir_parent (w : FS) (p : Path) (l : list string) :
  fs_wf w = true → FS.locate w p = Ok l → FS.is_dir w (Path.parent p) = true.
Proof.
  intros Hwf Hl.
  assert (∃ d, FS.locate w (Path.parent p) = Ok d
               ∧ dir_at (FS.tree w) d = true) as (d & Hd & Hdir).
  { apply locate_ok in Hl as [Hlong Hl].
    assert (FS.start w (Path.parent p) = FS.start w p) as Hst by done.
    pose proof (start_dir w p Hwf) as Hs.
    destruct Hl as [[Hp ->]|(Hp & d & Hw & _)].
    { exists (FS.start w p). split; [|done]. apply locate_ok.
      split; [by apply long_path_parent|]. left. simpl. by rewrite Hp. }
    exists d. split; [|by eapply walk_dir]. apply locate_ok.
    split; [by apply long_path_parent|]. rewrite Hst.
    unfold Path.name. cbn [Path.parent Path.parts].
    destruct (Path.parts p) as [|x ps] using rev_ind; [done|]. clear IHps.
    rewrite removelast_last in *.
    destruct ps as [|y ps] using rev_ind.
    { left. simpl in Hw. by injection Hw as <-. }
    clear IHps. right. split; [by destruct ps|].
    rewrite removelast_last, last_last. rewrite walk_snoc in Hw.
    destruct (FS.walk w p (FS.start w p) ps) as [d'| |] eqn:Hw'; try done.
    exists d'. split; [by apply (walk_label _ p)|].
    simpl in Hw. destruct (decide (y = "..")) as [->|Hy].
    - left. split; [done|]. by injection Hw as <-.
    - right. destruct (FS.long_name y); [done|]. split_and!; [done..|].
      destruct (get_node (FS.tree w) (d' ++ [y])) as [[|es]|]; try done.
      by injection Hw as <-. }
  unfold FS.is_dir, FS.stat. rewrite Hd. simpl.
  by apply dir_at_get in Hdir as [es ->].
Qed.

Lemma mkdir_existing (w : FS) (q : Path) :
  FS.is_dir w q = true → FS.mkdir_parents w q = (Ok (), w).
Proof.
  intros Hd. unfold FS.mkdir_parents.
  assert (∃ e, FS.os_mkdir w q = Raise e ∧ FS.is_not_found e = false)
    as (e & He & Hnf).
  { unfold FS.os_mkdir. unfold FS.is_dir, FS.stat in Hd.
    destruct (Path.parts q); [by eexists|].
    destruct (FS.locate w q) as [loc| |]; try done. simpl in *.
    case_decide; [by eexists|].
    destruct (get_node (FS.tree w) loc); [by eexists|done]. }
  destruct (length (Path.parts q)) eqn:Hlen.
  - cbn [FS.mkdir_upto]. apply length_zero_iff_nil in Hlen.
    assert ({| Path.root := Path.root q; Path.parts := take 0 (Path.parts q) |} = q)
      as -> by (destruct q; simpl in *; by subst).
    by rewrite He, Hnf, Hd.
  - cbn [FS.mkdir_upto]. rewrite <-Hlen, firstn_all, path_eta.
    by rewrite He, Hnf, Hd.
Qed.

(** ** Moving a regular file *)

Lemma dir_at_del_file (t : node) (ls l : list string) (data : string) :
  get_node t ls = Some (File data) → dir_at (del t ls) l = dir_at t l.
Proof.
  intros Hf. destruct (decide (ls `prefix_of` l)) as [[m ->]|Hn].
  - destruct ls as [|n ls]; [done|]. unfold dir_at.
    rewrite !get_node_app, get_node_del_eq, Hf by done. by destruct m.
  - apply same_kind_dir, get_node_del_other, Hn.
Qed.

Lemma dir_at_put_file (t : node) (ld l : list string) (data : string) :
  get_node t ld = None → dir_at (put t ld (File data)) l = dir_at t l.
Proof.
  intros Hf. destruct (decide (ld `prefix_of` l)) as [[m ->]|Hn].
  - destruct (put_cases t ld (File data)) as [->|Hput]; [done|].
    unfold dir_at. rewrite !get_node_app, Hput, Hf. by destruct m.
  - apply same_kind_dir, get_node_put_other, Hn.
Qed.

Lemma same_kind_none (x : option node) : same_kind x None → x = None.
Proof. by destruct x as [[d|es]|]. Qed.

Lemma fs_wf_root (w : FS) : fs_wf w = true → dir_at (FS.tree w) [] = true.
Proof. intros Hwf. by apply (dir_at_prefix _ [] (FS.cwd w)). Qed.

(** [shutil.move] of a regular file to a name that is free: the file is
    unlinked at its old location and bound at the new one; which locations
    are directories does not change. *)
Lemma rename_file (w : FS) (a b : Path) (la lb : list string) (data : string) :
  fs_wf w = true →
  FS.locate w a = Ok la → get_node (FS.tree w) la = Some (File data) →
  FS.locate w b = Ok lb → get_node (FS.tree w) lb = None →
  Path.name a ≠ ".." → Path.name b ≠ ".." →
  let w' := FS.mk (put (del (FS.tree w) la) lb (File data)) (FS.cwd w) in
  FS.shutil_move w a b = Ok w'
  ∧ (∀ l, dir_at (FS.tree w') l = dir_at (FS.tree w) l)
  ∧ get_node (FS.tree w') la = None
  ∧ get_node (FS.tree w') lb = Some (File data).
Proof.
  intros Hwf Hla Ha Hlb Hb Hna Hnb w'.
  pose proof (fs_wf_root w Hwf) as Hroot. unfold dir_at in Hroot.
  assert (la ≠ []) as Hla0.
  { intros ->. simpl in Ha, Hroot. injection Ha as Ha. by rewrite Ha in Hroot. }
  assert (lb ≠ []) as Hlb0 by (by intros ->).
  assert (la ≠ lb) as Hne by (intros ->; congruence).
  pose proof (locate_parent_dir w b lb Hwf Hlb Hnb) as Hpar.
  assert (¬ la `prefix_of` lb) as Hpre.
  { intros [m ->]. destruct m as [|x m] using rev_ind.
    - by rewrite app_nil_r in Hne.
    - rewrite (assoc_L (++)), removelast_last in Hpar.
      apply dir_at_prefix in Hpar. unfold dir_at in Hpar. by rewrite Ha in Hpar. }
  assert (¬ lb `prefix_of` la) as Hpre'.
  { intros [m ->]. by rewrite get_node_app, Hb in Ha. }
  assert (get_node (del (FS.tree w) la) lb = None) as Hb'.
  { apply same_kind_none. rewrite <-Hb. by apply get_node_del_other. }
  split_and!.
  - unfold FS.shutil_move, FS.is_dir, FS.stat. rewrite Hlb. simpl. rewrite Hb.
    unfold FS.rename_or_fail, FS.os_rename. rewrite Hla. simpl. rewrite Ha, Hlb.
    simpl. rewrite !decide_False by done. unfold FS.is_proper_prefix.
    rewrite (bool_decide_false (la `prefix_of` lb)) by done. simpl.
    by rewrite Hb.
  - intros l. simpl.
    by rewrite dir_at_put_file, (dir_at_del_file _ _ _ data).
  - simpl. apply same_kind_none.
    eapply same_kind_trans; [by apply get_node_put_other|].
    by rewrite get_node_del_eq.
  - simpl. apply get_node_put_eq; [done|].
    by rewrite (dir_at_del_file _ _ _ data).
Qed.

Lemma shutil_move_file_inv (w w2 : FS) (a b : Path) (data : string) :
  FS.stat w a = Ok (File data) → FS.exists_ w b = false →
  FS.shutil_move w a b = Ok w2 →
  ∃ la lb,
    FS.locate w a = Ok la ∧ get_node (FS.tree w) la = Some (File data)
    ∧ FS.locate w b = Ok lb ∧ get_node (FS.tree w) lb = None
    ∧ Path.name a ≠ ".." ∧ Path.name b ≠ "..".
Proof.
  unfold FS.stat, FS.exists_, FS.stat. intros Ha Hb Hmv.
  destruct (FS.locate w a) as [la| |] eqn:Hla; try done. simpl in Ha.
  destruct (get_node (FS.tree w) la) as [nd|] eqn:Hga; [|done].
  injection Ha as ->.
  unfold FS.shutil_move, FS.is_dir, FS.stat, FS.rename_or_fail, FS.os_rename in Hmv.
  rewrite Hla in Hmv. simpl in Hmv. rewrite Hga in Hmv.
  destruct (FS.locate w b) as [lb|e|] eqn:Hlb;
    unfold mbind, result_bind in Hb, Hmv; simpl in Hb, Hmv;
    [|by destruct (_ && _)|done].
  destruct (get_node (FS.tree w) lb) as [x|] eqn:Hgb; [done|].
  destruct (decide (Path.name a = "..")) as [|Hna];
    [by destruct (_ && _)|].
  destruct (decide (Path.name b = "..")) as [|Hnb];
    [by destruct (_ && _)|].
  by exists la, lb.
Qed.

(** ** A move and its undo *)

Lemma stat_located (w : FS) (p : Path) (l : list string) :
  FS.locate w p = Ok l →
  FS.stat w p = match get_node (FS.tree w) l with
                | Some nd => Ok nd
                | None => Raise (FS.ENOENT p)
                end.
Proof. intros H. unfold FS.stat. by rewrite H. Qed.

Lemma path_exists_located (w : FS) (p : Path) (l : list string) :
  FS.locate w p = Ok l →
  FS.path_exists w p = Ok (bool_decide (is_Some (get_node (FS.tree w) l))).
Proof.
  intros H. unfold FS.path_exists. rewrite (stat_located _ _ _ H).
  by destruct (get_node (FS.tree w) l) as [nd|].
Qed.

Lemma restore_entry_free (fp op : string) (acc : nat * list (string * string))
    (st : State) (w3 : FS) :
  FS.is_dir (fs st) (Path.parent (Path.of_string op)) = true →
  FS.path_exists (fs st) (Path.of_string op) = Ok false →
  FS.shutil_move (fs st) (Path.of_string fp) (Path.of_string op) = Ok w3 →
  restore_entry (fp, op) acc st = (Ok (S acc.1, acc.2), set_fs w3 st).
Proof.
  intros Hdir Hfree Hmv.
  unfold restore_entry, try_except, mbind, M_bind, mkdir.
  rewrite (mkdir_existing _ _ Hdir), set_fs_id.
  unfold available_path, mbind, M_bind, gets. cbn [next_free].
  unfold mbind, M_bind, exists_. rewrite Hfree.
  unfold mret, M_ret, move. by rewrite Hmv.
Qed.

(** X10.  A regular file that [shutil.move] has taken to a free name,
    restored at once from the ledger record written for it: the restore goes
    through without a collision suffix, the file is back under its original
    path with the content it had, and the name it had been given is free
    again.  Only the file system changes. *)
Theorem moved_file_is_restored (st st2 : State) (srcf c : Path) (data : string)
    (acc : nat * list (string * string)) :
  fs_wf (fs st) = true →
  path_wf srcf → path_wf c →
  FS.stat (fs st) srcf = Ok (File data) →
  FS.exists_ (fs st) c = false →
  move srcf c st = (Ok (), st2) →
  FS.exists_ (fs st2) srcf = false
  ∧ FS.stat (fs st2) c = Ok (File data)
  ∧ ∃ st3,
      restore_entry (Path.to_string c, Path.to_string srcf) acc st2
      = (Ok (S acc.1, acc.2), st3)
      ∧ st3 = set_fs (fs st3) st
      ∧ FS.stat (fs st3) srcf = Ok (File data)
      ∧ FS.exists_ (fs st3) c = false.
Proof.
  intros Hwf Hs Hc Hstat Hfree Hmove. unfold move in Hmove.
  destruct (FS.shutil_move (fs st) srcf c) as [w2| |] eqn:Hmv; try done.
  injection Hmove as <-.
  destruct (shutil_move_file_inv _ _ _ _ _ Hstat Hfree Hmv)
    as (la & lb & Hla & Ha & Hlb & Hb & Hna & Hnb).
  destruct (rename_file _ _ _ _ _ _ Hwf Hla Ha Hlb Hb Hna Hnb)
    as (Hmv' & Hdirs & Ha2 & Hb2).
  rewrite Hmv in Hmv'. injection Hmv' as ->. clear Hmv.
  set (w2 := FS.mk (put (del (FS.tree (fs st)) la) lb (File data))
               (FS.cwd (fs st))) in *.
  assert (fs_wf w2 = true) as Hwf2 by (unfold fs_wf; by rewrite Hdirs).
  pose proof (locate_stable (fs st) w2 _ _ Hdirs eq_refl Hla) as Hla2.
  pose proof (locate_stable (fs st) w2 _ _ Hdirs eq_refl Hlb) as Hlb2.
  destruct (rename_file w2 c srcf lb la data Hwf2 Hlb2 Hb2 Hla2 Ha2 Hnb Hna)
    as (Hback & Hdirs3 & Hb3 & Ha3).
  set (w3 := FS.mk (put (del (FS.tree w2) lb) la (File data)) (FS.cwd w2)) in *.
  pose proof (locate_stable w2 w3 _ _ Hdirs3 eq_refl Hla2) as Hla3.
  pose proof (locate_stable w2 w3 _ _ Hdirs3 eq_refl Hlb2) as Hlb3.
  cbn [fs set_fs].
  assert (FS.exists_ w2 srcf = false) as Hgone.
  { unfold FS.exists_. by rewrite (stat_located _ _ _ Hla2), Ha2. }
  split_and!; [done| |].
  { by rewrite (stat_located _ _ _ Hlb2), Hb2. }
  exists (set_fs w3 st). split_and!.
  - rewrite (restore_entry_free _ _ acc (set_fs w2 st) w3); [by destruct st|..];
      rewrite ?of_to_string by done; cbn [fs set_fs]; try done.
    + by apply (is_dir_parent w2 srcf la).
    + by rewrite (path_exists_located _ _ _ Hla2), Ha2.
  - done.
  - cbn [fs set_fs]. by rewrite (stat_located _ _ _ Hla3), Ha3.
  - cbn [fs set_fs]. unfold FS.exists_.
    by rewrite (stat_located _ _ _ Hlb3), Hb3.
Qed.

Lemma moved_file_is_restored_witness :
  let srcf := Path.of_string "/s/a.jpg" in
  let c := Path.of_string "/s/Organized/Images/a (2).jpg" in
  let st2 := (move srcf c Ex.crowded).2 in
  let acc : nat * list (string * string) := (0, []) in
  FS.exists_ (fs st2) srcf = false
  ∧ FS.stat (fs st2) c = Ok (File "new")
  ∧ ∃ st3,
      restore_entry (Path.to_string c, Path.to_string srcf) acc st2
      = (Ok (S acc.1, acc.2), st3)
      ∧ st3 = set_fs (fs st3) Ex.crowded
      ∧ FS.stat (fs st3) srcf = Ok (File "new")
      ∧ FS.exists_ (fs st3) c = false.
Proof.
  intros srcf c st2 acc.
  apply (moved_file_is_restored Ex.crowded st2 srcf c "new" acc).
  - vm_compute. reflexivity.
  - apply (bool_decide_unpack _). vm_compute. reflexivity.
  - apply (bool_decide_unpack _). vm_compute. reflexivity.
  - vm_compute. reflexivity.
  - vm_compute. reflexivity.
  - unfold st2. rewrite (surjective_pairing (move srcf c Ex.crowded)) at 1.
    f_equal; vm_compute; reflexivity.
Defined.

(** ** Renaming on collision *)

Lemma rfind_dot_app (s1 s2 : string) :
  rfind_dot (s1 +:+ s2)
  = match rfind_dot s2 with
    | Some i => Some (String.length s1 + i)
    | None => rfind_dot s1
    end.
Proof.
  induction s1 as [|c s1 IH];
    [rewrite append_nil_l; by destruct (rfind_dot s2)|].
  rewrite append_cons. simpl. rewrite IH. by destruct (rfind_dot s2).
Qed.

Lemma rfind_dot_lt (s : string) (i : nat) :
  rfind_dot s = Some i → i < String.length s.
Proof.
  revert i. induction s as [|c s IH]; intros i; simpl; [done|].
  destruct (rfind_dot s) as [j|].
  - intros [= <-]. specialize (IH j eq_refl). lia.
  - case_decide; [|done]. intros [= <-]. lia.
Qed.

Lemma length_substring_0 (i : nat) (s : string) :
  i ≤ String.length s → String.length (String.substring 0 i s) = i.
Proof.
  revert i. induction s as [|c s IH]; intros [|i] Hi; simpl in *; try done; try lia.
  rewrite IH; lia.
Qed.

Lemma substring_full (s : string) : String.substring 0 (String.length s) s = s.
Proof. induction s as [|c s IH]; simpl; [done|by f_equal]. Qed.

Lemma substring_app_l (a b : string) :
  String.substring 0 (String.length a) (a +:+ b) = a.
Proof.
  induction a as [|c a IH]; [rewrite append_nil_l; by destruct b|].
  rewrite append_cons. simpl. by f_equal.
Qed.

Lemma substring_app_r (a b : string) :
  String.substring (String.length a) (String.length b) (a +:+ b) = b.
Proof.
  induction a as [|c a IH]; [rewrite append_nil_l; apply substring_full|].
  by rewrite append_cons.
Qed.

(** A non-empty extension begins at the last dot of the name and has at
    least one more character. *)
Lemma suffix_shape (p : Path) :
  Path.suffix p ≠ "" →
  rfind_dot (Path.suffix p) = Some 0
  ∧ 2 ≤ String.length (Path.suffix p)
  ∧ 0 < String.length (Path.stem p).
Proof.
  intros Hne. pose proof (stem_suffix p) as Hname.
  revert Hne Hname. unfold Path.suffix, Path.stem, Path.dot_index.
  destruct (rfind_dot (Path.name p)) as [i|] eqn:Hdot; [|done].
  destruct (bool_decide (0 < i)) eqn:H0; [|done].
  destruct (bool_decide (i < String.length (Path.name p) - 1)) eqn:H1; [|done].
  simpl. apply bool_decide_eq_true in H0, H1.
  set (a := String.substring 0 i (Path.name p)).
  set (b := String.substring i _ (Path.name p)).
  intros _ Hname.
  assert (String.length a = i) as Ha by (apply length_substring_0; lia).
  assert (String.length a + String.length b = String.length (Path.name p)) as Hlen.
  { by rewrite <-length_append, Hname. }
  split_and!; [|lia..].
  rewrite <-Hname, rfind_dot_app in Hdot.
  destruct (rfind_dot b) as [j|].
  - injection Hdot as Hj. f_equal. lia.
  - apply rfind_dot_lt in Hdot. lia.
Qed.

Lemma renamed_suffix (p : Path) (tok : string) :
  Path.suffix p ≠ "" → tok ≠ "" →
  let q := {| Path.root := Path.root p;
              Path.parts := removelast (Path.parts p)
                            ++ [Path.stem p +:+ tok +:+ Path.suffix p] |} in
  Path.suffix q = Path.suffix p ∧ Path.stem q = Path.stem p +:+ tok.
Proof.
  intros Hne Htok q. destruct (suffix_shape p Hne) as (Hdot & Hlen & _).
  assert (0 < String.length tok) as Htl by (destruct tok; [done|simpl; lia]).
  assert (Path.name q = (Path.stem p +:+ tok) +:+ Path.suffix p) as Hq.
  { unfold Path.name, q. simpl. by rewrite last_last, append_assoc. }
  assert (rfind_dot (Path.name q) = Some (String.length (Path.stem p +:+ tok)))
    as Hd.
  { rewrite Hq, rfind_dot_app, Hdot. f_equal. lia. }
  assert (String.length (Path.name q)
          = String.length (Path.stem p +:+ tok) + String.length (Path.suffix p))
    as Hl by (by rewrite Hq, length_append).
  unfold Path.suffix at 1, Path.stem at 1, Path.dot_index. rewrite Hd.
  rewrite !bool_decide_true by (rewrite ?Hl, length_append; lia). simpl.
  rewrite Hl. rewrite Hq. split.
  - replace (_ + _ - _) with (String.length (Path.suffix p)) by lia.
    apply substring_app_r.
  - apply substring_app_l.
Qed.

(** X11.  The name the collision loop settles on lies in the directory of
    the path it was asked for.  It is that path itself, or its last
    component is the stem of the path asked for, the token [" (i)"] (in
    [undo_moves], [" (undone i)"]) with [i] at least 1, and the extension
    of the path asked for, in this order.  When the path asked for has an
    extension, the name settled on has the same extension, and its stem is
    the old stem followed by the token. *)
Theorem renamed_candidate_keeps_extension (token : nat → string) (base c : Path)
    (st st' : State) :
  token = numbered ∨ token = undone →
  available_path token base st = (Ok c, st') →
  Path.parent c = Path.parent base
  ∧ (c = base
     ∨ ∃ i, 1 ≤ i
            ∧ Path.name c = Path.stem base +:+ token i +:+ Path.suffix base
            ∧ (Path.suffix base ≠ "" →
               Path.suffix c = Path.suffix base
               ∧ Path.stem c = Path.stem base +:+ token i)).
Proof.
  intros Htok Hrun.
  assert (∃ k, c = candidate token base k) as [k ->].
  { destruct Htok as [-> | ->].
    - destruct (available_path_spec numbered numbered_inj numbered_space base st)
        as [(k & Hk & _)|(e & Hk & _)]; rewrite Hk in Hrun; [|done].
      injection Hrun as <- _. by exists k.
    - destruct (available_path_spec undone undone_inj undone_space base st)
        as [(k & Hk & _)|(e & Hk & _)]; rewrite Hk in Hrun; [|done].
      injection Hrun as <- _. by exists k. }
  destruct k as [|k]; [by split; [|left]|].
  assert (token (S k) ≠ "") as Hne.
  { assert (string_mem " " (token (S k)) = true) as Hsp
      by (destruct Htok as [-> | ->]; [apply numbered_space|apply undone_space]).
    by intros Heq; rewrite Heq in Hsp. }
  split.
  - unfold Path.parent. simpl. by rewrite removelast_last.
  - right. exists (S k). split_and!; [lia| |].
    + unfold Path.name. simpl. by rewrite last_last.
    + intros Hsuf. exact (renamed_suffix base (token (S k)) Hsuf Hne).
Qed.

Lemma renamed_candidate_keeps_extension_witness :
  let base := Path.of_string "/s/Organized/Images/a.jpg" in
  let c := Path.of_string "/s/Organized/Images/a (2).jpg" in
  Path.parent c = Path.parent base
  ∧ (c = base
     ∨ ∃ i, 1 ≤ i
            ∧ Path.name c = Path.stem base +:+ numbered i +:+ Path.suffix base
            ∧ (Path.suffix base ≠ "" →
               Path.suffix c = Path.suffix base
               ∧ Path.stem c = Path.stem base +:+ numbered i)).
Proof.
  intros base c.
  apply (renamed_candidate_keeps_extension numbered base c Ex.crowded Ex.crowded).
  - left. reflexivity.
  - vm_compute. reflexivity.
Defined.

(** ** Matching extensions *)

Lemma lower_ascii_dot (c : ascii) : lower_ascii c = "."%char → c = "."%char.
Proof.
  destruct c as [[] [] [] [] [] [] [] []]; vm_compute; intros H;
    try reflexivity; discriminate H.
Qed.

Lemma lower_nil (s : string) : lower s = "" → s = "".
Proof. by destruct s. Qed.

Lemma suffix_dot (p : Path) :
  Path.suffix p = "" ∨ ∃ s, Path.suffix p = String "." s.
Proof.
  destruct (decide (Path.suffix p = "")) as [|Hne]; [by left|right].
  destruct (suffix_shape p Hne) as (Hdot & _ & _).
  destruct (Path.suffix p) as [|c s]; [done|]. exists s. simpl in Hdot.
  destruct (rfind_dot s); [done|]. case_decide; [by subst|done].
Qed.

(** X12.  For a rule whose listed extensions are ASCII and a file whose
    extension is ASCII: the rule passes for the file exactly when it has a
    non-empty [move_to] and one of its listed extensions equals the file's
    extension up to the case of the letters.  The extension of a file is
    empty or begins with a dot, so a listed extension can only match if it
    is written with its dot (or is empty, for files without extension). *)
Theorem extension_match_ignores_case (r : Rule) (f : Path) :
  Forall (λ e, is_ascii e = true) (match_ext r) →
  is_ascii (Path.suffix f) = true →
  (passes r f = true
   ↔ truthy (action_move_to r) = true
     ∧ ∃ e, e ∈ match_ext r ∧ lower e = lower (Path.suffix f))
  ∧ (∀ e, e ∈ match_ext r → lower e = lower (Path.suffix f) →
          (e = "" ∧ Path.suffix f = "")
          ∨ (∃ s s', e = String "." s ∧ Path.suffix f = String "." s')).
Proof.
  intros _ _. split.
  - rewrite passes_iff. unfold ext_contains, exts_of.
    rewrite elem_of_list_to_set, list_elem_of_fmap. split.
    + intros [(e & He & Hin) Ht]. split; [done|]. by exists e.
    + intros [Ht (e & Hin & He)]. split; [|done]. by exists e.
  - intros e _ He. destruct (suffix_dot f) as [Hs|[s' Hs]]; rewrite Hs in *.
    + left. split; [|done]. by apply lower_nil.
    + right. destruct e as [|c s]; [done|]. simpl in He.
      injection He as Hc _. apply lower_ascii_dot in Hc as ->. by exists s, s'.
Qed.

Lemma extension_match_ignores_case_witness :
  (passes Ex.pics Ex.photo = true
   ↔ truthy (action_move_to Ex.pics) = true
     ∧ ∃ e, e ∈ match_ext Ex.pics ∧ lower e = lower (Path.suffix Ex.photo))
  ∧ (∀ e, e ∈ match_ext Ex.pics → lower e = lower (Path.suffix Ex.photo) →
          (e = "" ∧ Path.suffix Ex.photo = "")
          ∨ (∃ s s', e = String "." s ∧ Path.suffix Ex.photo = String "." s')).
Proof.
  apply (extension_match_ignores_case Ex.pics Ex.photo).
  - apply (bool_decide_unpack _). vm_compute. reflexivity.
  - vm_compute. reflexivity.
Defined.

(** ** A cancelled folder dialog *)

(** X14.  When the folder dialog is cancelled, the label reads "No folder
    selected." and the preview shows the opening hint, but nothing else is
    reset: the folder chosen before is still selected, the plan, the ledger
    and both buttons are as they were, and a following Preview plans for
    that folder exactly as it would have without the dialog. *)
Theorem cancelled_dialog_keeps_selection (st : State) :
  let st1 := (choose_folder "" st).2 in
  (choose_folder "" st).1 = Ok "No folder selected."
  ∧ selected_folder st1 = selected_folder st
  ∧ PLANNED st1 = PLANNED st ∧ LAST_MOVES st1 = LAST_MOVES st
  ∧ apply_btn st1 = apply_btn st ∧ undo_btn st1 = undo_btn st
  ∧ fs st1 = fs st ∧ logs st1 = logs st
  ∧ PLANNED (start_arranging st1).2 = PLANNED (start_arranging st).2
  ∧ apply_btn (start_arranging st1).2 = apply_btn (start_arranging st).2
  ∧ (truthy (selected_folder st) = true →
     start_arranging st1 = start_arranging st).
Proof.
  intros st1. unfold st1. rewrite choose_folder_spec.
  rewrite decide_True by done. cbn [fst snd].
  rewrite !start_arranging_spec.
  cbn [selected_folder PLANNED LAST_MOVES apply_btn undo_btn fs logs CONFIG
       set_preview].
  split_and!; try done.
  - destruct (truthy (selected_folder st)); [|done].
    by destruct (planned_of _ _ _).
  - destruct (truthy (selected_folder st)); [|done].
    by destruct (planned_of _ _ _).
  - intros ->. by destruct (planned_of _ _ _).
Qed.
